(** * EventEmitter: a shallow embedding of the listener registry

    The development follows the TypeScript class [EventEmitter] and its
    compiled form [dist/EventEmitter.js]: JavaScript values with reference
    identity, plain objects used as string-keyed maps with the enumeration
    order of [for ... in], the emitter's own properties [_events] and
    [_onceReturnValue], and the methods of the class as computations in a
    small state-and-exception monad (the five aliases [on], [once], [off],
    [removeAllListeners] and [trigger] only forward and are left out). *)

From Stdlib Require Import List String Ascii ZArith NArith Bool Arith Lia.
Import ListNotations.

Set Warnings "-register-all".

Local Open Scope string_scope.
Local Open Scope list_scope.

(** ** JavaScript values *)

(** Object references.  Two objects are the same object exactly when their
    references are equal. *)
Definition ref := nat.

(** A regular expression: what [evt.test(key)] answers and the two parts
    [String(evt)] is printed from.  Expressions with the [g] or [y] flag,
    whose [test] depends on [lastIndex], are outside the model. *)
Record RegExp := mkRegExp {
  test : string -> bool;
  source : string;
  flags : string
}.

(** [String(evt)] for a regular expression, the property name that
    [response[evt]] writes to. *)
Definition toString (r : RegExp) : string :=
  ("/" ++ source r ++ "/" ++ flags r)%string.

(** Numbers are the integral ones; objects carry the two properties the
    emitter reads, [listener] and [once] ([VUndefined] when missing). *)
Inductive value :=
| VUndefined
| VNull
| VBoolean (b : bool)
| VNumber (n : Z)
| VString (s : string)
| VFunction (f : ref)
| VRegExp (o : ref) (r : RegExp)
| VObject (o : ref) (listener once : value)
| VArray (o : ref) (items : list value).

(** [a === b]: primitives by value, functions and objects by reference. *)
Definition strict_equals (a b : value) : bool :=
  match a, b with
  | VUndefined, VUndefined => true
  | VNull, VNull => true
  | VBoolean x, VBoolean y => Bool.eqb x y
  | VNumber x, VNumber y => Z.eqb x y
  | VString x, VString y => String.eqb x y
  | VFunction f, VFunction g => Nat.eqb f g
  | VRegExp o _, VRegExp p _ => Nat.eqb o p
  | VObject o _ _, VObject p _ _ => Nat.eqb o p
  | VArray o _, VArray p _ => Nat.eqb o p
  | _, _ => false
  end.

Definition typeof (v : value) : string :=
  match v with
  | VUndefined => "undefined"
  | VNull => "object"
  | VBoolean _ => "boolean"
  | VNumber _ => "number"
  | VString _ => "string"
  | VFunction _ => "function"
  | VRegExp _ _ => "object"
  | VObject _ _ _ => "object"
  | VArray _ _ => "object"
  end.

(** [ToBoolean]. *)
Definition truthy (v : value) : bool :=
  match v with
  | VUndefined | VNull => false
  | VBoolean b => b
  | VNumber n => negb (Z.eqb n 0)
  | VString s => negb (String.eqb s "")
  | _ => true
  end.

(** [v.listener] and [v.once].  The listener arrays only ever hold objects
    (see [addListener]), for which a property read cannot fail. *)
Definition get_listener (v : value) : value :=
  match v with
  | VObject _ l _ => l
  | _ => VUndefined
  end.

Definition get_once (v : value) : value :=
  match v with
  | VObject _ _ c => c
  | _ => VUndefined
  end.

Definition instanceof_RegExp (v : value) : bool :=
  match v with
  | VRegExp _ _ => true
  | _ => false
  end.

(** ** Plain objects as maps, in [for ... in] order *)

(** An array index is the canonical decimal form of a number below
    [2^32 - 1]; such property names are enumerated first, in ascending
    order, and all other names follow in the order of their creation. *)
Definition digit (c : ascii) : option N :=
  let n := N_of_ascii c in
  if (48 <=? n)%N && (n <=? 57)%N then Some (n - 48)%N else None.

Fixpoint digits (s : string) (acc : N) : option N :=
  match s with
  | EmptyString => Some acc
  | String c rest =>
      match digit c with
      | Some d => digits rest (10 * acc + d)%N
      | None => None
      end
  end.

Definition array_index (s : string) : option N :=
  match s with
  | EmptyString => None
  | String c rest =>
      if Ascii.eqb c "0"%char
      then (if String.eqb rest "" then Some 0%N else None)
      else match digits s 0 with
           | Some n => if (n <? 4294967295)%N then Some n else None
           | None => None
           end
  end.

Module Obj.

(** The own enumerable properties of an object, in enumeration order. *)
Definition t (A : Type) := list (string * A).

Definition empty {A} : t A := [].

Fixpoint get {A} (k : string) (o : t A) : option A :=
  match o with
  | [] => None
  | (k', v) :: rest => if String.eqb k k' then Some v else get k rest
  end.

Definition has {A} (k : string) (o : t A) : bool :=
  match get k o with Some _ => true | None => false end.

Definition keys {A} (o : t A) : list string := map fst o.

(** Apply [f] to the value of property [k], when there is one. *)
Fixpoint update {A} (k : string) (f : A -> A) (o : t A) : t A :=
  match o with
  | [] => []
  | (k', v) :: rest =>
      if String.eqb k k' then (k', f v) :: rest
      else (k', v) :: update k f rest
  end.

(** Where a new array-index property goes: after the smaller indices. *)
Fixpoint insert_index {A} (n : N) (k : string) (v : A) (o : t A) : t A :=
  match o with
  | [] => [(k, v)]
  | (k', v') :: rest =>
      match array_index k' with
      | Some m =>
          if (m <? n)%N then (k', v') :: insert_index n k v rest
          else (k, v) :: o
      | None => (k, v) :: o
      end
  end.

(** [o[k] = v]: an existing property keeps its place. *)
Definition set {A} (k : string) (v : A) (o : t A) : t A :=
  if has k o then update k (fun _ => v) o
  else match array_index k with
       | Some n => insert_index n k v o
       | None => o ++ [(k, v)]
       end.

(** [delete o[k]]. *)
Definition delete {A} (k : string) (o : t A) : t A :=
  filter (fun kv => negb (String.eqb k (fst kv))) o.

End Obj.

(** ** Completions and the monad of the methods *)

Inductive exn :=
| TypeError (message : string)   (* [throw new TypeError(message)] *)
| NotCallable                    (* the engine's error for [x.apply] on a value that has none *)
| Raised (v : value).            (* whatever else a listener throws *)

Inductive Completion (A : Type) :=
| Normal (a : A)
| Abrupt (e : exn).

Arguments Normal {A} a.
Arguments Abrupt {A} e.

Definition M (S A : Type) : Type := S -> Completion A * S.

Definition ret {S A} (a : A) : M S A := fun s => (Normal a, s).

Definition throw {S A} (e : exn) : M S A := fun s => (Abrupt e, s).

Definition bind {S A B} (m : M S A) (k : A -> M S B) : M S B :=
  fun s =>
    match m s with
    | (Normal a, s') => k a s'
    | (Abrupt e, s') => (Abrupt e, s')
    end.

Notation "x <- m ;; k" := (bind m (fun x => k))
  (at level 61, m at next level, right associativity).
Notation "m ;; k" := (bind m (fun _ => k))
  (at level 61, right associativity).

(** The body of a loop run once per element, until one run throws. *)
Fixpoint for_each {S A} (l : list A) (body : A -> M S unit) : M S unit :=
  match l with
  | [] => ret tt
  | x :: rest => body x ;; for_each rest body
  end.

(** The state a computation ends in, and how it ends. *)
Definition exec {S A} (m : M S A) (s : S) : S := snd (m s).
Definition outcome {S A} (m : M S A) (s : S) : Completion A := fst (m s).

(** ** The emitter *)

(** [type EventKey = string | RegExp] *)
Inductive EventKey :=
| EString (s : string)
| ERegExp (r : RegExp).

(** The event table: each key owns one array of listener records.  The
    arrays are created by [getListeners] only, one per key, so an array is
    identified by the key that owns it and the table holds its elements. *)
Definition ListenerMap := Obj.t (list value).

(** The table is a plain object, so besides its own properties
    [events[name]] also finds the properties every object inherits from
    [Object.prototype].  Each of them holds a function (for "__proto__",
    the prototype object): a truthy value that is not an array and has no
    enumerable property of its own.  No method assigns to such a name, so
    the table never comes to own one, [hasOwnProperty] included. *)
Definition inherited (name : string) : bool :=
  existsb (String.eqb name)
    ["constructor"; "toString"; "toLocaleString"; "valueOf";
     "hasOwnProperty"; "isPrototypeOf"; "propertyIsEnumerable";
     "__proto__"; "__defineGetter__"; "__defineSetter__";
     "__lookupGetter__"; "__lookupSetter__"].

(** The instance's own properties ([None]: not set), and the next
    reference the allocator hands out for an object literal. *)
Record Store := mkStore {
  _onceReturnValue : option value;
  _events : option ListenerMap;
  next_ref : ref
}.

(** [new EventEmitter()].  The class declares the fields [_onceReturnValue]
    and [_events] (lines 70-71 of the source, emitted as the field
    definitions [_onceReturnValue;] and [_events;] in dist/EventEmitter.js),
    so the instance is created owning both, with the value [undefined];
    for [_events], which is only read through [this._events || ...], that
    is the same as not set. *)
Definition new_EventEmitter (n : ref) : Store :=
  {| _onceReturnValue := Some VUndefined; _events := None; next_ref := n |}.

Definition with_events (ev : ListenerMap) (s : Store) : Store :=
  {| _onceReturnValue := _onceReturnValue s;
     _events := Some ev;
     next_ref := next_ref s |}.

(** The table as [_getEvents] would return it, and the elements of the
    array a key owns. *)
Definition events_of (s : Store) : ListenerMap :=
  match _events s with
  | Some ev => ev
  | None => Obj.empty
  end.

Definition array_at (owner : string) (s : Store) : list value :=
  match Obj.get owner (events_of s) with
  | Some l => l
  | None => []
  end.

(** [indexOfListener]: [i = listeners.length; while (i--) ...]. *)
Fixpoint indexOfListener_from (i : nat) (listeners : list value)
    (listener : value) : Z :=
  match i with
  | O => (-1)%Z
  | S j =>
      if strict_equals (get_listener (nth j listeners VUndefined)) listener
      then Z.of_nat j
      else indexOfListener_from j listeners listener
  end.

Definition indexOfListener (listeners : list value) (listener : value) : Z :=
  indexOfListener_from (List.length listeners) listeners listener.

(** [isValidListener].  Objects are finite here, so the recursion through
    [listener.listener] ends. *)
Fixpoint isValidListener (listener : value) : bool :=
  if String.eqb (typeof listener) "function" || instanceof_RegExp listener
  then true
  else if truthy listener && String.eqb (typeof listener) "object"
  then match listener with
       | VObject _ l _ => isValidListener l
       | _ => false              (* [isValidListener(undefined)] *)
       end
  else false.

(** [this._events || (this._events = {})] *)
Definition _getEvents : M Store ListenerMap :=
  fun s =>
    match _events s with
    | Some ev => (Normal ev, s)
    | None => (Normal Obj.empty, with_events Obj.empty s)
    end.

Definition set_events (ev : ListenerMap) : M Store unit :=
  fun s => (Normal tt, with_events ev s).

(** Reading the elements of the array a key owns (also what [.slice(0)]
    copies) and mutating that array in place.  An array whose key has been
    deleted is no longer reachable from the emitter. *)
Definition elements (owner : string) : M Store (list value) :=
  fun s => (Normal (array_at owner s), s).

Definition mutate (owner : string) (f : list value -> list value)
    : M Store unit :=
  fun s =>
    (Normal tt,
     match _events s with
     | Some ev => with_events (Obj.update owner f ev) s
     | None => s
     end).

(** [listeners.push(x)] and [listeners.splice(index, 1)]. *)
Definition push (x : value) (l : list value) : list value := l ++ [x].

Definition splice1 (index : Z) (l : list value) : list value :=
  firstn (Z.to_nat index) l ++ skipn (S (Z.to_nat index)) l.

(** An object literal [{ listener: l, once: c }]. *)
Definition new_record (l c : value) : M Store value :=
  fun s =>
    (Normal (VObject (next_ref s) l c),
     {| _onceReturnValue := _onceReturnValue s;
        _events := _events s;
        next_ref := S (next_ref s) |}).

(** What [getListeners] returns: the array of a key, an object whose
    properties are arrays of the table, or the value the table inherits
    under a name it does not own. *)
Inductive Listeners :=
| LArray (owner : string)
| LObject (response : Obj.t string)
| LInherited (name : string).

(** [getListeners].  For a pattern every matching key is written to the
    one property [response[evt]], named by the pattern's text; the value
    is the table's own array of that key, not a copy.  For a string,
    [events[evt] || (events[evt] = [])]: an array, even an empty one, is
    truthy, and so is what the table inherits, so a key is created only
    when the name is neither owned nor inherited. *)
Definition getListeners (evt : EventKey) : M Store Listeners :=
  events <- _getEvents ;;
  match evt with
  | ERegExp r =>
      ret (LObject
             (fold_left
                (fun response key =>
                   if test r key
                   then Obj.set (toString r) key response
                   else response)
                (Obj.keys events) Obj.empty))
  | EString s =>
      match Obj.get s events with
      | Some _ => ret (LArray s)
      | None =>
          if inherited s then ret (LInherited s)
          else set_events (Obj.set s [] events) ;; ret (LArray s)
      end
  end.

(** [getListenersAsObject]: an array is wrapped as [response[evt]];
    anything else is returned as it is, and an inherited value has no
    property for a [for ... in] loop to visit. *)
Definition getListenersAsObject (evt : EventKey) : M Store (Obj.t string) :=
  listeners <- getListeners evt ;;
  match listeners, evt with
  | LArray owner, EString s => ret (Obj.set s owner Obj.empty)
  | LArray owner, ERegExp r => ret (Obj.set (toString r) owner Obj.empty)
  | LObject response, _ => ret response
  | LInherited _, _ => ret Obj.empty
  end.

Definition flattenListeners (listeners : list value) : list value :=
  map get_listener listeners.

(** [addListener].  The search is given [listener] as it came, function or
    record; the record pushed for a function is a new object. *)
Definition addListener (evt : EventKey) (listener : value) : M Store unit :=
  if negb (isValidListener listener)
  then throw (TypeError "listener must be a function")
  else
    listeners <- getListenersAsObject evt ;;
    let listenerIsWrapped := String.eqb (typeof listener) "object" in
    for_each listeners (fun kv =>
      live <- elements (snd kv) ;;
      if (indexOfListener live listener =? -1)%Z
      then
        record <- (if listenerIsWrapped then ret listener
                   else new_record listener (VBoolean false)) ;;
        mutate (snd kv) (push record)
      else ret tt).

(** [addOnceListener]: [addListener(evt, { listener: listener, once: true })]. *)
Definition addOnceListener (evt : EventKey) (listener : value)
    : M Store unit :=
  record <- new_record listener (VBoolean true) ;;
  addListener evt record.

Definition defineEvent (evt : EventKey) : M Store unit :=
  getListeners evt ;; ret tt.

Definition defineEvents (evts : list EventKey) : M Store unit :=
  for_each evts defineEvent.

Definition removeListener (evt : EventKey) (listener : value)
    : M Store unit :=
  listeners <- getListenersAsObject evt ;;
  for_each listeners (fun kv =>
    live <- elements (snd kv) ;;
    let index := indexOfListener live listener in
    if negb (index =? -1)%Z
    then mutate (snd kv) (splice1 index)
    else ret tt).

(** [type Events = EventKey | EventMap] *)
Inductive Events :=
| OneEvent (evt : EventKey)
| EventMap (m : Obj.t value).

(** [listeners.length] and [listeners[i]] for the value of a map entry:
    the elements of an array, the characters of a string, nothing for a
    value without a [length]. *)
Definition items_of (v : value) : list value :=
  match v with
  | VArray _ items => items
  | VString s => map (fun c => VString (String c "")) (list_ascii_of_string s)
  | _ => []
  end.

Definition single (remove : bool) : EventKey -> value -> M Store unit :=
  if remove then removeListener else addListener.

(** [i = listeners.length; while (i--) single.call(this, evt, listeners[i])] *)
Fixpoint while_down (i : nat) (listeners : list value)
    (body : value -> M Store unit) : M Store unit :=
  match i with
  | O => ret tt
  | S j => body (nth j listeners VUndefined) ;; while_down j listeners body
  end.

(** [manipulateListeners].  The plural method it calls for an entry of a
    map is [manipulateListeners] again, with the entry's key, a string, as
    [evt]: that call takes the second branch, written out here. *)
Definition manipulateListeners (remove : bool) (evt : Events)
    (listeners : list value) : M Store unit :=
  match evt with
  | EventMap m =>
      for_each m (fun iv =>
        let i := fst iv in
        let value := snd iv in
        if truthy value
        then
          if String.eqb (typeof value) "function"
          then single remove (EString i) value
          else while_down (List.length (items_of value)) (items_of value)
                 (single remove (EString i))
        else ret tt)
  | OneEvent e =>
      while_down (List.length listeners) listeners (single remove e)
  end.

Definition addListeners (evt : Events) (listeners : list value)
    : M Store unit :=
  manipulateListeners false evt listeners.

Definition removeListeners (evt : Events) (listeners : list value)
    : M Store unit :=
  manipulateListeners true evt listeners.

(** [removeEvent]: [delete events[evt]] for a string, [delete events[key]]
    for every matching key of a pattern, [delete this._events] otherwise. *)
Definition removeEvent (evt : option EventKey) : M Store unit :=
  events <- _getEvents ;;
  match evt with
  | Some (EString s) => set_events (Obj.delete s events)
  | Some (ERegExp r) =>
      set_events (filter (fun kv => negb (test r (fst kv))) events)
  | None =>
      fun s =>
        (Normal tt,
         {| _onceReturnValue := _onceReturnValue s;
            _events := None;
            next_ref := next_ref s |})
  end.

Definition setOnceReturnValue (v : value) : M Store unit :=
  fun s =>
    (Normal tt,
     {| _onceReturnValue := Some v;
        _events := _events s;
        next_ref := next_ref s |}).

(** [_getOnceReturnValue]: the own property when there is one, else [true]. *)
Definition _getOnceReturnValue : M Store value :=
  fun s =>
    match _onceReturnValue s with
    | Some v => (Normal v, s)
    | None => (Normal (VBoolean true), s)
    end.

(** ** Dispatch *)

(** One application of a listener by the emitter: the function, its
    arguments, and the emitter as the function finds it. *)
Record Call := mkCall {
  callee : ref;
  arguments : list value;
  receiver : Store
}.

Record Run := mkRun {
  this : Store;
  calls : list Call
}.

Definition start (s : Store) : Run := {| this := s; calls := [] |}.

Definition lift {A} (m : M Store A) : M Run A :=
  fun w =>
    let (c, s) := m (this w) in
    (c, {| this := s; calls := calls w |}).

Section Dispatch.

(** What each function does when applied to arguments with the emitter
    as [this]: it may change the emitter through any of its methods, and
    returns or throws. *)
Variable behaviour : ref -> list value -> M Store value.

(** [f.apply(this, args)] *)
Definition apply (f : value) (args : list value) : M Run value :=
  match f with
  | VFunction c =>
      fun w =>
        let (r, s) := behaviour c args (this w) in
        (r, {| this := s;
               calls := calls w ++ [mkCall c args (this w)] |})
  | _ => throw NotCallable
  end.

(** The loop [for (i = 0; i < listeners.length; i++)] over the copy:
    remove a fire-once listener, apply the function, and remove the
    listener when the result is the sentinel. *)
Fixpoint fire (evt : EventKey) (args : option (list value))
    (listeners : list value) : M Run unit :=
  match listeners with
  | [] => ret tt
  | listener :: rest =>
      (if strict_equals (get_once listener) (VBoolean true)
       then lift (removeListener evt (get_listener listener))
       else ret tt) ;;
      response <- apply (get_listener listener)
                    (match args with Some a => a | None => [] end) ;;
      sentinel <- lift _getOnceReturnValue ;;
      (if strict_equals response sentinel
       then lift (removeListener evt (get_listener listener))
       else ret tt) ;;
      fire evt args rest
  end.

(** [emitEvent]: for each property of the mapping, the copy
    [listenersMap[key].slice(0)] is taken when the loop reaches it, and
    the inner loop runs over the copy. *)
Definition emitEvent (evt : EventKey) (args : option (list value))
    : M Run unit :=
  listenersMap <- lift (getListenersAsObject evt) ;;
  for_each listenersMap (fun kv =>
    listeners <- lift (elements (snd kv)) ;;
    fire evt args listeners).

Definition emit (evt : EventKey) (args : list value) : M Run unit :=
  emitEvent evt (Some args).

End Dispatch.

(** ** Notions used in the statements *)

(** The value [_getOnceReturnValue] reads. *)
Definition sentinel_of (s : Store) : value :=
  match _onceReturnValue s with
  | Some v => v
  | None => VBoolean true
  end.

(** The functions of a list of records, as [flattenListeners] gives them. *)
Definition registered (listener : value) (listeners : list value) : Prop :=
  In listener (flattenListeners listeners).

(** What [removeListener] does to one array. *)
Definition remove_last (listener : value) (l : list value) : list value :=
  let index := indexOfListener l listener in
  if (index =? -1)%Z then l else splice1 index l.

(** What [addListener] does to one array, [n] being the next reference. *)
Definition add_last (n : ref) (listener : value) (l : list value)
    : list value :=
  if (indexOfListener l listener =? -1)%Z
  then push (if String.eqb (typeof listener) "object" then listener
             else VObject n listener (VBoolean false)) l
  else l.

(** Whether [getListeners] called with the string [k] yields an array:
    the table owns [k], or [k] is not an inherited name and gets created. *)
Definition reachable (k : string) (s : Store) : bool :=
  Obj.has k (events_of s) || negb (inherited k).

(** The store once [getListeners] has been called with the string [k]. *)
Definition defined (k : string) (s : Store) : Store :=
  with_events
    (if Obj.has k (events_of s) || inherited k then events_of s
     else Obj.set k [] (events_of s))
    s.

(** The run once [removeListener] has been called in it. *)
Definition removed (evt : EventKey) (x : value) (w : Run) : Run :=
  {| this := exec (removeListener evt x) (this w); calls := calls w |}.

(** The functions a run has applied, oldest first. *)
Definition callees (w : Run) : list ref := map callee (calls w).

(** What a listener may be assumed to do, as far as the array of [k] is
    concerned: [c] returns normally and leaves the array as it is ... *)
Definition keeps_array (behaviour : ref -> list value -> M Store value)
    (k : string) (c : ref) : Prop :=
  forall a t,
    (exists v, outcome (behaviour c a) t = Normal v) /\
    array_at k (exec (behaviour c a) t) = array_at k t.

(** ... or [c] returns normally after [this.addListener(k, g)]. *)
Definition adds_listener (behaviour : ref -> list value -> M Store value)
    (k : string) (c g : ref) : Prop :=
  forall a t,
    (exists v, outcome (behaviour c a) t = Normal v) /\
    array_at k (exec (behaviour c a) t) =
    array_at k (exec (addListener (EString k) (VFunction g)) t).

(** Every record of the list holds a function. *)
Definition callable (listeners : list value) : Prop :=
  Forall (fun x => exists c, get_listener x = VFunction c) listeners.

(** Every record of [l] holds a function that is [g] or is registered in
    the copy [L]. *)
Definition from_copy (g : ref) (L l : list value) : Prop :=
  Forall (fun x => exists c, get_listener x = VFunction c /\
                             (c = g \/ registered (VFunction c) L)) l.

(** Between the runs [before] and [after] the record [r], whose function
    is [f], has had its turn: [f] was applied once; [r] was in the live
    array of [k] at that moment unless it is fire-once; and it is there
    afterwards unless it is fire-once or [f] returned the sentinel. *)
Definition one_turn (behaviour : ref -> list value -> M Store value)
    (k : string) (r : value) (f : ref) (before after : Run) : Prop :=
  exists pre call post,
    calls after = calls before ++ pre ++ call :: post /\
    callee call = f /\
    ~ In f (map callee pre) /\ ~ In f (map callee post) /\
    (In r (array_at k (receiver call)) <->
     strict_equals (get_once r) (VBoolean true) = false) /\
    (In r (array_at k (this after)) <->
     strict_equals (get_once r) (VBoolean true) = false /\
     exists v,
       outcome (behaviour f (arguments call)) (receiver call) = Normal v /\
       strict_equals v
         (sentinel_of (exec (behaviour f (arguments call)) (receiver call)))
       = false).

(** The error of the add path. *)
Definition InvalidListener : exn := TypeError "listener must be a function".

(** The values the specification admits as listeners: a function, a
    pattern, or a record whose [listener] property is admitted. *)
Inductive listener_shape : value -> Prop :=
| shape_function (f : ref) : listener_shape (VFunction f)
| shape_pattern (o : ref) (r : RegExp) : listener_shape (VRegExp o r)
| shape_record (o : ref) (l c : value) :
    listener_shape l -> listener_shape (VObject o l c).

(** The mapping a selector resolves to, as [getListenersAsObject] returns
    it: property name and the key owning the array. *)
Definition resolve (evt : EventKey) (s : Store) : Obj.t string :=
  match outcome (getListenersAsObject evt) s with
  | Normal response => response
  | Abrupt _ => Obj.empty
  end.

(** No array the selector resolves to holds the listener. *)
Definition unregistered_at (evt : EventKey) (x : value) (s : Store) : Prop :=
  forall kv, In kv (resolve evt s) ->
             indexOfListener (array_at (snd kv) s) x = (-1)%Z.

(** None of the listeners a bulk removal names is registered where the
    removal looks for it: for one selector, the given array; for a map,
    under each key the function or the items of the entry. *)
Definition nothing_to_remove (evts : Events) (listeners : list value)
    (s : Store) : Prop :=
  match evts with
  | OneEvent e => forall x, In x listeners -> unregistered_at e x s
  | EventMap m =>
      forall iv, In iv m ->
        forall x,
          In x (if String.eqb (typeof (snd iv)) "function" then [snd iv]
                else items_of (snd iv)) ->
          indexOfListener (array_at (fst iv) s) x = (-1)%Z
  end.

(** The last key, in enumeration order, that a pattern matches. *)
Definition last_match (r : RegExp) (keys : list string) : option string :=
  fold_left (fun found key => if test r key then Some key else found)
    keys None.

(** All object references inside a value are below [n] ... *)
Fixpoint refs_below (n : ref) (v : value) : bool :=
  match v with
  | VObject o l c => Nat.ltb o n && refs_below n l && refs_below n c
  | VRegExp o _ => Nat.ltb o n
  | VArray o items => Nat.ltb o n && forallb (refs_below n) items
  | _ => true
  end.

(** ... and the table holds only objects allocated so far. *)
Definition allocated (s : Store) : bool :=
  forallb (fun kv => forallb (refs_below (next_ref s)) (snd kv)) (events_of s).

(** ** Concrete emitters *)

(** [/^(foo|bar)$/] *)
Definition foo_or_bar : RegExp :=
  mkRegExp (fun key => String.eqb key "foo" || String.eqb key "bar")
    "^(foo|bar)$" "".

(** [addListener("foo", f1); addListener("bar", f2)] on a new emitter. *)
Definition two_events : Store :=
  exec (addListener (EString "foo") (VFunction 1) ;;
        addListener (EString "bar") (VFunction 2))
    (new_EventEmitter 0).

(** [addOnceListener("foo", f1)] twice on a new emitter. *)
Definition once_twice : Store :=
  exec (addOnceListener (EString "foo") (VFunction 1) ;;
        addOnceListener (EString "foo") (VFunction 1))
    (new_EventEmitter 0).

(** [addOnceListener("foo", f1); addListener("foo", { listener: f1, once: false })],
    the record being object 7. *)
Definition once_and_record : Store :=
  exec (addOnceListener (EString "foo") (VFunction 1) ;;
        addListener (EString "foo")
          (VObject 7 (VFunction 1) (VBoolean false)))
    (new_EventEmitter 10).

(** Functions that return [false] and touch nothing. *)
Definition returns_false : ref -> list value -> M Store value :=
  fun _ _ => ret (VBoolean false).

(** Function 1 calls [this.addListener("foo", f2)]; the others return
    [false] and touch nothing. *)
Definition one_adds_two : ref -> list value -> M Store value :=
  fun c _ =>
    if Nat.eqb c 1
    then addListener (EString "foo") (VFunction 2) ;; ret VUndefined
    else ret (VBoolean false).

(** [addListener("foo", f1)] on a new emitter. *)
Definition one_event : Store :=
  exec (addListener (EString "foo") (VFunction 1)) (new_EventEmitter 0).

(** [/^baz$/] *)
Definition only_baz : RegExp := mkRegExp (String.eqb "baz") "^baz$" "".

(** Functions with no [return]. *)
Definition returns_undefined : ref -> list value -> M Store value :=
  fun _ _ => ret VUndefined.

(** A computation leaves an observation of the store as it was. *)
Definition preserves {A B} (obs : Store -> B) (m : M Store A) : Prop :=
  forall s, obs (exec m s) = obs s.

(** The keys of the table, in enumeration order. *)
Definition event_keys (s : Store) : list string := Obj.keys (events_of s).

(** Function 2 throws; the others return [false] and touch nothing. *)
Definition two_throws : ref -> list value -> M Store value :=
  fun c _ =>
    if Nat.eqb c 2 then throw (Raised (VString "boom"))
    else ret (VBoolean false).

(** [addListener("foo", f1); addListener("foo", f2); addListener("foo", f3)]
    on a new emitter. *)
Definition three_listeners : Store :=
  exec (addListener (EString "foo") (VFunction 1) ;;
        addListener (EString "foo") (VFunction 2) ;;
        addListener (EString "foo") (VFunction 3))
    (new_EventEmitter 0).

(** Function 1 calls [this.addListener("foo", f2)] and function 3 calls
    [this.removeListener("foo", f2)]; all return [false]. *)
Definition one_adds_three_removes : ref -> list value -> M Store value :=
  fun c _ =>
    if Nat.eqb c 1
    then addListener (EString "foo") (VFunction 2) ;; ret (VBoolean false)
    else if Nat.eqb c 3
    then removeListener (EString "foo") (VFunction 2) ;; ret (VBoolean false)
    else ret (VBoolean false).

(** [addListener("foo", f1); addListener("foo", f3)] on a new emitter. *)
Definition one_and_three : Store :=
  exec (addListener (EString "foo") (VFunction 1) ;;
        addListener (EString "foo") (VFunction 3))
    (new_EventEmitter 0).

(** The store after the calls [body x], for the [x] of [l] from the first
    to the last, each call on the store the one before it left, whether
    that call returned or threw. *)
Definition applied_in_turn (body : value -> M Store unit) (l : list value)
    (s : Store) : Store :=
  fold_left (fun t x => exec (body x) t) l s.

(** * Properties *)

(** ** Objects as maps *)

Module ObjFacts.

Lemma get_update_same {A} (k : string) (f : A -> A) (o : Obj.t A) :
  Obj.get k (Obj.update k f o) = option_map f (Obj.get k o).
Proof.
  induction o as [|[k' v] rest IH]; simpl; [reflexivity|].
  destruct (String.eqb k k') eqn:E; simpl; rewrite E; auto.
Qed.

Lemma get_update_other {A} (k k' : string) (f : A -> A) (o : Obj.t A) :
  k <> k' -> Obj.get k' (Obj.update k f o) = Obj.get k' o.
Proof.
  intros Hne.
  induction o as [|[k0 v] rest IH]; simpl; [reflexivity|].
  destruct (String.eqb k k0) eqn:E; simpl.
  - apply String.eqb_eq in E. subst k0.
    destruct (String.eqb k' k) eqn:E'; [|reflexivity].
    apply String.eqb_eq in E'. congruence.
  - destruct (String.eqb k' k0); auto.
Qed.

Lemma get_app {A} (k : string) (o1 o2 : Obj.t A) :
  Obj.get k (o1 ++ o2) =
  match Obj.get k o1 with Some v => Some v | None => Obj.get k o2 end.
Proof.
  induction o1 as [|[k' v] rest IH]; simpl; [reflexivity|].
  destruct (String.eqb k k'); auto.
Qed.

Lemma get_insert_index {A} (n : N) (k k' : string) (v : A) (o : Obj.t A) :
  Obj.get k o = None ->
  Obj.get k' (Obj.insert_index n k v o) =
  if String.eqb k' k then Some v else Obj.get k' o.
Proof.
  induction o as [|[k0 v0] rest IH]; simpl; intros Hk.
  - reflexivity.
  - destruct (String.eqb k k0) eqn:E; [discriminate|].
    destruct (array_index k0) as [m|]; [destruct (m <? n)%N|]; simpl;
      try reflexivity.
    rewrite (IH Hk).
    destruct (String.eqb k' k0) eqn:E0; [|reflexivity].
    apply String.eqb_eq in E0. subst k0.
    destruct (String.eqb k' k) eqn:E1; [|reflexivity].
    apply String.eqb_eq in E1. subst k'.
    rewrite String.eqb_refl in E. discriminate.
Qed.

Lemma get_set {A} (k k' : string) (v : A) (o : Obj.t A) :
  Obj.get k' (Obj.set k v o) =
  if String.eqb k' k then Some v else Obj.get k' o.
Proof.
  unfold Obj.set, Obj.has.
  destruct (Obj.get k o) as [v0|] eqn:Hk.
  - destruct (String.eqb k' k) eqn:E.
    + apply String.eqb_eq in E. subst k'.
      rewrite get_update_same, Hk. reflexivity.
    + apply get_update_other. intros ->.
      rewrite String.eqb_refl in E. discriminate.
  - destruct (array_index k) as [n|].
    + apply get_insert_index. exact Hk.
    + rewrite get_app. simpl.
      destruct (Obj.get k' o) eqn:Hk'.
      * destruct (String.eqb k' k) eqn:E; [|reflexivity].
        apply String.eqb_eq in E. congruence.
      * destruct (String.eqb k' k); reflexivity.
Qed.

Lemma set_empty {A} (k : string) (v : A) :
  Obj.set k v Obj.empty = [(k, v)].
Proof.
  unfold Obj.set, Obj.has, Obj.empty. simpl.
  destruct (array_index k); reflexivity.
Qed.

Lemma get_delete {A} (k k' : string) (o : Obj.t A) :
  Obj.get k' (Obj.delete k o) =
  if String.eqb k' k then None else Obj.get k' o.
Proof.
  unfold Obj.delete.
  induction o as [|[k0 v0] rest IH]; simpl.
  - destruct (String.eqb k' k); reflexivity.
  - destruct (String.eqb k k0) eqn:E; simpl.
    + apply String.eqb_eq in E. subst k0. rewrite IH.
      destruct (String.eqb k' k); reflexivity.
    + rewrite IH.
      destruct (String.eqb k' k0) eqn:E0; [|reflexivity].
      apply String.eqb_eq in E0. subst k0.
      destruct (String.eqb k' k) eqn:E1; [|reflexivity].
      apply String.eqb_eq in E1. subst k'.
      rewrite String.eqb_refl in E. discriminate.
Qed.

End ObjFacts.

(** ** The table and the arrays it owns *)

Lemma with_events_same (ev : ListenerMap) (s : Store) :
  _events s = Some ev -> with_events ev s = s.
Proof.
  destruct s as [o e n]. simpl. intros ->. reflexivity.
Qed.

Lemma events_of_with_events (ev : ListenerMap) (s : Store) :
  events_of (with_events ev s) = ev.
Proof. reflexivity. Qed.

Lemma array_at_with_events (k : string) (ev : ListenerMap) (s : Store) :
  array_at k (with_events ev s) =
  match Obj.get k ev with Some l => l | None => [] end.
Proof. reflexivity. Qed.

Lemma events_of_defined (k : string) (s : Store) :
  events_of (defined k s) =
  if Obj.has k (events_of s) || inherited k then events_of s
  else Obj.set k [] (events_of s).
Proof. reflexivity. Qed.

Lemma reachable_plain (k : string) (s : Store) :
  inherited k = false -> reachable k s = true.
Proof.
  intros H. unfold reachable. rewrite H. apply orb_true_r.
Qed.

Lemma unreachable_empty (k : string) (s : Store) :
  reachable k s = false -> array_at k s = [].
Proof.
  unfold reachable, Obj.has, array_at.
  destruct (Obj.get k (events_of s)); [discriminate | reflexivity].
Qed.

Lemma nonempty_reachable (k : string) (s : Store) :
  array_at k s <> [] -> reachable k s = true.
Proof.
  intros H. destruct (reachable k s) eqn:E; [reflexivity|].
  exfalso. apply H. apply unreachable_empty. exact E.
Qed.

Lemma has_defined (k : string) (s : Store) :
  reachable k s = true ->
  Obj.get k (events_of (defined k s)) = Some (array_at k s).
Proof.
  rewrite events_of_defined. unfold reachable, Obj.has, array_at.
  destruct (Obj.get k (events_of s)) as [l|] eqn:E; simpl.
  - intros _. exact E.
  - intros H. apply negb_true_iff in H. rewrite H.
    rewrite ObjFacts.get_set, String.eqb_refl. reflexivity.
Qed.

Lemma reachable_defined (k : string) (s : Store) :
  reachable k (defined k s) = reachable k s.
Proof.
  unfold reachable at 1. rewrite events_of_defined. unfold reachable, Obj.has.
  destruct (Obj.get k (events_of s)) as [l|] eqn:E; simpl.
  - rewrite E. reflexivity.
  - destruct (inherited k); simpl.
    + rewrite E. reflexivity.
    + rewrite ObjFacts.get_set, String.eqb_refl. reflexivity.
Qed.

Lemma reachable_defined_has (k : string) (s : Store) :
  Obj.has k (events_of (defined k s)) = reachable k s.
Proof.
  rewrite events_of_defined. unfold reachable, Obj.has.
  destruct (Obj.get k (events_of s)) as [l|] eqn:E; simpl.
  - rewrite E. reflexivity.
  - destruct (inherited k); simpl.
    + rewrite E. reflexivity.
    + rewrite ObjFacts.get_set, String.eqb_refl. reflexivity.
Qed.

Lemma array_at_defined (k k' : string) (s : Store) :
  array_at k' (defined k s) = array_at k' s.
Proof.
  unfold array_at at 1. rewrite events_of_defined. unfold Obj.has.
  destruct (Obj.get k (events_of s)) as [l|] eqn:E; [reflexivity|].
  simpl. destruct (inherited k); [reflexivity|].
  rewrite ObjFacts.get_set.
  destruct (String.eqb k' k) eqn:E'; [|reflexivity].
  apply String.eqb_eq in E'. subst k'.
  unfold array_at. rewrite E. reflexivity.
Qed.

Lemma sentinel_of_defined (k : string) (s : Store) :
  sentinel_of (defined k s) = sentinel_of s.
Proof. reflexivity. Qed.

Lemma getListeners_string (k : string) (s : Store) :
  getListeners (EString k) s =
  (Normal (if reachable k s then LArray k else LInherited k), defined k s).
Proof.
  unfold getListeners, bind, _getEvents, defined, reachable, events_of, Obj.has.
  destruct (_events s) as [ev|] eqn:E; simpl.
  - destruct (Obj.get k ev) eqn:G; simpl.
    + rewrite (with_events_same _ _ E). reflexivity.
    + destruct (inherited k); simpl; [|reflexivity].
      rewrite (with_events_same _ _ E). reflexivity.
  - destruct (inherited k); reflexivity.
Qed.

Lemma getListenersAsObject_string (k : string) (s : Store) :
  getListenersAsObject (EString k) s =
  (Normal (if reachable k s then [(k, k)] else []), defined k s).
Proof.
  unfold getListenersAsObject, bind. rewrite getListeners_string.
  destruct (reachable k s); unfold ret; [|reflexivity].
  rewrite ObjFacts.set_empty. reflexivity.
Qed.

Lemma mutate_defined (k : string) (f : list value -> list value) (s : Store) :
  mutate k f (defined k s) =
  (Normal tt, with_events (Obj.update k f (events_of (defined k s))) (defined k s)).
Proof. reflexivity. Qed.

Lemma array_at_update (k k' : string) (f : list value -> list value)
    (s : Store) :
  reachable k s = true ->
  array_at k' (with_events (Obj.update k f (events_of (defined k s)))
                 (defined k s)) =
  if String.eqb k' k then f (array_at k s) else array_at k' s.
Proof.
  intros Hr. rewrite array_at_with_events.
  destruct (String.eqb k' k) eqn:E.
  - apply String.eqb_eq in E. subst k'.
    rewrite ObjFacts.get_update_same, (has_defined k s Hr). reflexivity.
  - rewrite ObjFacts.get_update_other.
    + fold (array_at k' (defined k s)). apply array_at_defined.
    + intros ->. rewrite String.eqb_refl in E. discriminate.
Qed.

Lemma indexOfListener_nil (x : value) : indexOfListener [] x = (-1)%Z.
Proof. reflexivity. Qed.

(** ** Removing a listener *)

Lemma removeListener_string (k : string) (x : value) (s : Store) :
  removeListener (EString k) x s =
  (Normal tt,
   let index := indexOfListener (array_at k s) x in
   if (index =? -1)%Z then defined k s
   else with_events (Obj.update k (splice1 index) (events_of (defined k s)))
          (defined k s)).
Proof.
  unfold removeListener, bind. rewrite getListenersAsObject_string.
  destruct (reachable k s) eqn:Hr.
  - simpl. unfold bind, elements. simpl. rewrite array_at_defined.
    destruct (indexOfListener (array_at k s) x =? -1)%Z; reflexivity.
  - rewrite (unreachable_empty k s Hr). reflexivity.
Qed.

Lemma array_at_removeListener (k k' : string) (x : value) (s : Store) :
  array_at k' (exec (removeListener (EString k) x) s) =
  if String.eqb k' k then remove_last x (array_at k s) else array_at k' s.
Proof.
  unfold exec. rewrite removeListener_string. simpl. unfold remove_last.
  destruct (indexOfListener (array_at k s) x =? -1)%Z eqn:E.
  - rewrite array_at_defined. destruct (String.eqb k' k) eqn:E'; [|reflexivity].
    apply String.eqb_eq in E'. subst. reflexivity.
  - apply array_at_update. apply nonempty_reachable. intros Hnil.
    rewrite Hnil in E. discriminate E.
Qed.

Lemma sentinel_of_removeListener (k : string) (x : value) (s : Store) :
  sentinel_of (exec (removeListener (EString k) x) s) = sentinel_of s.
Proof.
  unfold exec. rewrite removeListener_string. simpl.
  destruct (indexOfListener (array_at k s) x =? -1)%Z; reflexivity.
Qed.

Lemma next_ref_removeListener (k : string) (x : value) (s : Store) :
  next_ref (exec (removeListener (EString k) x) s) = next_ref s.
Proof.
  unfold exec. rewrite removeListener_string. simpl.
  destruct (indexOfListener (array_at k s) x =? -1)%Z; reflexivity.
Qed.

(** ** Adding a listener *)

Lemma addListener_invalid (evt : EventKey) (x : value) (s : Store) :
  isValidListener x = false ->
  addListener evt x s = (Abrupt (TypeError "listener must be a function"), s).
Proof.
  intros H. unfold addListener. rewrite H. reflexivity.
Qed.

Lemma addListener_string_outcome (k : string) (x : value) (s : Store) :
  isValidListener x = true ->
  outcome (addListener (EString k) x) s = Normal tt.
Proof.
  intros H. unfold outcome, addListener. rewrite H. simpl.
  unfold bind. rewrite getListenersAsObject_string.
  destruct (reachable k s); [|reflexivity].
  simpl. unfold bind, elements. simpl.
  destruct (indexOfListener _ x =? -1)%Z; simpl; [|reflexivity].
  destruct (String.eqb (typeof x) "object"); reflexivity.
Qed.

Lemma array_at_addListener (k k' : string) (x : value) (s : Store) :
  isValidListener x = true ->
  array_at k' (exec (addListener (EString k) x) s) =
  if String.eqb k' k && reachable k s
  then add_last (next_ref s) x (array_at k s)
  else array_at k' s.
Proof.
  intros H. unfold exec, addListener. rewrite H. simpl.
  unfold bind. rewrite getListenersAsObject_string.
  destruct (reachable k s) eqn:Hr.
  - rewrite andb_true_r.
    simpl. unfold bind, elements. simpl. rewrite array_at_defined.
    unfold add_last.
    destruct (indexOfListener (array_at k s) x =? -1)%Z; simpl.
    + destruct (String.eqb (typeof x) "object"); simpl.
      * apply array_at_update. exact Hr.
      * apply (array_at_update k k'
                 (push (VObject (next_ref s) x (VBoolean false))) s Hr).
    + rewrite array_at_defined.
      destruct (String.eqb k' k) eqn:E; [|reflexivity].
      apply String.eqb_eq in E. subst. reflexivity.
  - rewrite andb_false_r. simpl. apply array_at_defined.
Qed.

(** ** Searching an array *)

Lemma strict_equals_function (v : value) (c : ref) :
  strict_equals v (VFunction c) = true <-> v = VFunction c.
Proof.
  destruct v; simpl; split; intros H; try discriminate.
  - apply Nat.eqb_eq in H. subst. reflexivity.
  - injection H as ->. apply Nat.eqb_refl.
Qed.

Lemma indexOfListener_from_found (i : nat) (l : list value) (x : value) :
  indexOfListener_from i l x <> (-1)%Z ->
  exists j, indexOfListener_from i l x = Z.of_nat j /\ j < i /\
            strict_equals (get_listener (nth j l VUndefined)) x = true.
Proof.
  induction i as [|i IH]; simpl; intros H.
  - congruence.
  - destruct (strict_equals (get_listener (nth i l VUndefined)) x) eqn:E.
    + exists i. auto.
    + destruct (IH H) as (j & Hj & Hlt & Heq). exists j. auto.
Qed.

Lemma indexOfListener_from_none (i : nat) (l : list value) (x : value) :
  indexOfListener_from i l x = (-1)%Z <->
  forall j, j < i -> strict_equals (get_listener (nth j l VUndefined)) x = false.
Proof.
  induction i as [|i IH]; simpl.
  - split; [intros _ j Hj; lia | reflexivity].
  - destruct (strict_equals (get_listener (nth i l VUndefined)) x) eqn:E.
    + split; [lia|]. intros H. rewrite (H i) in E by lia. discriminate.
    + rewrite IH. split; intros H j Hj.
      * destruct (Nat.eq_dec j i) as [->|]; [exact E | apply H; lia].
      * apply H. lia.
Qed.

Lemma indexOfListener_none (l : list value) (x : value) :
  indexOfListener l x = (-1)%Z <->
  forall y, In y l -> strict_equals (get_listener y) x = false.
Proof.
  unfold indexOfListener. rewrite indexOfListener_from_none. split.
  - intros H y Hy. destruct (In_nth _ _ VUndefined Hy) as (j & Hj & <-).
    apply H. exact Hj.
  - intros H j Hj. apply H. apply nth_In. exact Hj.
Qed.

Lemma indexOfListener_unregistered (l : list value) (c : ref) :
  ~ registered (VFunction c) l -> indexOfListener l (VFunction c) = (-1)%Z.
Proof.
  intros H. apply indexOfListener_none. intros y Hy.
  destruct (strict_equals (get_listener y) (VFunction c)) eqn:E; [|reflexivity].
  apply strict_equals_function in E. exfalso. apply H.
  unfold registered, flattenListeners. rewrite <- E. apply in_map. exact Hy.
Qed.

Lemma indexOfListener_registered (l : list value) (c : ref) :
  registered (VFunction c) l -> indexOfListener l (VFunction c) <> (-1)%Z.
Proof.
  intros H Hnone. unfold registered, flattenListeners in H.
  apply in_map_iff in H. destruct H as (y & Hy & Hin).
  rewrite indexOfListener_none in Hnone. specialize (Hnone y Hin).
  rewrite Hy in Hnone. simpl in Hnone. rewrite Nat.eqb_refl in Hnone.
  discriminate.
Qed.

Lemma In_splice1 (j : nat) (l : list value) (y : value) :
  In y (splice1 (Z.of_nat j) l) -> In y l.
Proof.
  unfold splice1. rewrite Nat2Z.id. intros H.
  apply in_app_or in H. destruct H as [H|H].
  - rewrite <- (firstn_skipn j l). apply in_or_app. left. exact H.
  - rewrite <- (firstn_skipn (S j) l). apply in_or_app. right. exact H.
Qed.

Lemma splice1_keeps (j : nat) (l : list value) (y : value) :
  In y l -> y <> nth j l VUndefined -> In y (splice1 (Z.of_nat j) l).
Proof.
  unfold splice1. rewrite Nat2Z.id. intros Hy Hne.
  rewrite <- (firstn_skipn j l) in Hy. apply in_app_or in Hy.
  apply in_or_app. destruct Hy as [Hy|Hy]; [left; exact Hy|].
  right. destruct (skipn j l) as [|z rest] eqn:E; [contradiction|].
  assert (Hz : nth j l VUndefined = z).
  { rewrite <- (firstn_skipn j l) at 1. rewrite E.
    assert (Hlen : j <= List.length l).
    { destruct (Nat.le_gt_cases j (List.length l)) as [Hle|Hgt]; [exact Hle|].
      rewrite skipn_all2 in E by lia. discriminate. }
    rewrite app_nth2; rewrite length_firstn, Nat.min_l by exact Hlen; [|lia].
    rewrite Nat.sub_diag. reflexivity. }
  assert (Hs : skipn (S j) l = rest).
  { replace (S j) with (1 + j) by lia. rewrite <- skipn_skipn, E. reflexivity. }
  rewrite Hs. destruct Hy as [Hy|Hy]; [|exact Hy].
  subst z. congruence.
Qed.

Lemma In_remove_last (x y : value) (l : list value) :
  In y (remove_last x l) -> In y l.
Proof.
  unfold remove_last.
  destruct (indexOfListener l x =? -1)%Z eqn:E; [auto|].
  apply Z.eqb_neq in E.
  destruct (indexOfListener_from_found _ _ _ E) as (j & Hj & _).
  unfold indexOfListener. rewrite Hj. apply In_splice1.
Qed.

Lemma remove_last_keeps (x y : value) (l : list value) :
  In y l -> strict_equals (get_listener y) x = false ->
  In y (remove_last x l).
Proof.
  intros Hy Hne. unfold remove_last.
  destruct (indexOfListener l x =? -1)%Z eqn:E; [exact Hy|].
  apply Z.eqb_neq in E.
  destruct (indexOfListener_from_found _ _ _ E) as (j & Hj & _ & Heq).
  unfold indexOfListener. rewrite Hj. apply splice1_keeps; [exact Hy|].
  intros ->. congruence.
Qed.

Lemma remove_last_unregistered (x : value) (l : list value) :
  indexOfListener l x = (-1)%Z -> remove_last x l = l.
Proof.
  intros H. unfold remove_last. rewrite H. reflexivity.
Qed.

(** ** Computations that cannot throw *)

Lemma bind_ret_tt {S} (m : M S unit) (s : S) : (m ;; ret tt) s = m s.
Proof.
  unfold bind, ret. destruct (m s) as [[[]|e] s']; reflexivity.
Qed.

Lemma for_each_normal {S A} (body : A -> M S unit) (l : list A) (s : S) :
  (forall a t, outcome (body a) t = Normal tt) ->
  outcome (for_each l body) s = Normal tt.
Proof.
  intros Hbody. revert s.
  induction l as [|a rest IH]; intros s; simpl; [reflexivity|].
  unfold outcome, bind. specialize (Hbody a s). unfold outcome in Hbody.
  destruct (body a s) as [c s']. simpl in Hbody. subst c. apply IH.
Qed.

Lemma normal_run {S} (m : M S unit) (s : S) :
  outcome m s = Normal tt -> m s = (Normal tt, exec m s).
Proof.
  unfold outcome, exec. destruct (m s) as [c s']. simpl. intros ->. reflexivity.
Qed.

Lemma getListenersAsObject_regexp (r : RegExp) (s : Store) :
  getListenersAsObject (ERegExp r) s =
  (Normal
     (fold_left
        (fun response key =>
           if test r key then Obj.set (toString r) key response else response)
        (Obj.keys (events_of s)) Obj.empty),
   exec _getEvents s).
Proof.
  unfold getListenersAsObject, getListeners, bind, _getEvents, exec, events_of.
  destruct (_events s); reflexivity.
Qed.

Lemma getListenersAsObject_total (evt : EventKey) (s : Store) :
  exists response, getListenersAsObject evt s =
                   (Normal response, exec (getListenersAsObject evt) s).
Proof.
  destruct evt as [k|r].
  - eexists. unfold exec. rewrite getListenersAsObject_string. reflexivity.
  - eexists. unfold exec. rewrite getListenersAsObject_regexp. reflexivity.
Qed.

Lemma removeListener_outcome (evt : EventKey) (x : value) (s : Store) :
  outcome (removeListener evt x) s = Normal tt.
Proof.
  unfold outcome, removeListener, bind.
  destruct (getListenersAsObject_total evt s) as (response & ->).
  apply for_each_normal. intros kv t. unfold outcome, bind, elements. simpl.
  destruct (indexOfListener _ x =? -1)%Z; reflexivity.
Qed.

Lemma getListeners_outcome (evt : EventKey) (s : Store) :
  exists r, outcome (getListeners evt) s = Normal r.
Proof.
  destruct evt as [k|r].
  - eexists. unfold outcome. rewrite getListeners_string. reflexivity.
  - unfold outcome, getListeners, bind, _getEvents.
    destruct (_events s); eexists; reflexivity.
Qed.

Lemma defineEvent_outcome (evt : EventKey) (s : Store) :
  outcome (defineEvent evt) s = Normal tt.
Proof.
  unfold outcome, defineEvent, bind.
  destruct (getListeners_outcome evt s) as (r & H). unfold outcome in H.
  destruct (getListeners evt s) as [c s']. simpl in H. subst c. reflexivity.
Qed.

Lemma removeEvent_outcome (evt : option EventKey) (s : Store) :
  outcome (removeEvent evt) s = Normal tt.
Proof.
  unfold outcome, removeEvent, bind, _getEvents.
  destruct (_events s); destruct evt as [[k|r]|]; reflexivity.
Qed.

Lemma while_down_normal (body : value -> M Store unit) (i : nat)
    (l : list value) (s : Store) :
  (forall a t, outcome (body a) t = Normal tt) ->
  outcome (while_down i l body) s = Normal tt.
Proof.
  intros Hbody. revert s.
  induction i as [|i IH]; intros s; simpl; [reflexivity|].
  unfold outcome, bind. specialize (Hbody (nth i l VUndefined) s).
  unfold outcome in Hbody.
  destruct (body (nth i l VUndefined) s) as [c s']. simpl in Hbody. subst c.
  apply IH.
Qed.

Lemma removeListeners_outcome (evt : Events) (l : list value) (s : Store) :
  outcome (removeListeners evt l) s = Normal tt.
Proof.
  unfold removeListeners, manipulateListeners. destruct evt as [e|m].
  - apply while_down_normal. intros. apply removeListener_outcome.
  - apply for_each_normal. intros [i v] t. simpl.
    destruct (truthy v); [|reflexivity].
    destruct (String.eqb (typeof v) "function").
    + apply removeListener_outcome.
    + apply while_down_normal. intros. apply removeListener_outcome.
Qed.

(** ** One turn of the dispatch loop *)

Section DispatchFacts.

Variable behaviour : ref -> list value -> M Store value.

Lemma lift_removeListener (evt : EventKey) (x : value) (w : Run) :
  lift (removeListener evt x) w = (Normal tt, removed evt x w).
Proof.
  unfold lift, removed.
  rewrite (normal_run _ _ (removeListener_outcome evt x (this w))).
  reflexivity.
Qed.

Lemma fire_cons (evt : EventKey) (args : option (list value))
    (x : value) (rest : list value) (w : Run) :
  fire behaviour evt args (x :: rest) w =
  let w1 := if strict_equals (get_once x) (VBoolean true)
            then removed evt (get_listener x) w else w in
  let a := match args with Some a => a | None => [] end in
  match get_listener x with
  | VFunction c =>
      let w2 := {| this := exec (behaviour c a) (this w1);
                   calls := calls w1 ++ [mkCall c a (this w1)] |} in
      match outcome (behaviour c a) (this w1) with
      | Normal v =>
          fire behaviour evt args rest
            (if strict_equals v (sentinel_of (this w2))
             then removed evt (VFunction c) w2 else w2)
      | Abrupt e => (Abrupt e, w2)
      end
  | _ => (Abrupt NotCallable, w1)
  end.
Proof.
  cbn [fire]. unfold bind at 1.
  set (w1 := if strict_equals (get_once x) (VBoolean true)
             then removed evt (get_listener x) w else w).
  assert (H1 : (if strict_equals (get_once x) (VBoolean true)
                then lift (removeListener evt (get_listener x))
                else ret tt) w = (Normal tt, w1)).
  { unfold w1. destruct (strict_equals (get_once x) (VBoolean true)).
    - apply lift_removeListener.
    - reflexivity. }
  rewrite H1. cbv zeta. unfold bind at 1.
  destruct (get_listener x) as [| | | | |c| | |] eqn:Hl; try reflexivity.
  unfold apply, outcome, exec.
  destruct (behaviour c _ (this w1)) as [[v|e] t] eqn:Hb; simpl; [|reflexivity].
  unfold bind at 1. unfold lift at 1, _getOnceReturnValue, sentinel_of. simpl.
  destruct (_onceReturnValue t) as [sv|] eqn:Hs; simpl.
  - unfold bind at 1. destruct (strict_equals v sv).
    + rewrite lift_removeListener. reflexivity.
    + reflexivity.
  - unfold bind at 1. destruct (strict_equals v (VBoolean true)).
    + rewrite lift_removeListener. reflexivity.
    + reflexivity.
Qed.

Lemma emitEvent_string (k : string) (args : option (list value)) (w : Run) :
  emitEvent behaviour (EString k) args w =
  fire behaviour (EString k) args (array_at k (this w))
    {| this := defined k (this w); calls := calls w |}.
Proof.
  unfold emitEvent. unfold bind at 1. unfold lift at 1.
  rewrite getListenersAsObject_string.
  destruct (reachable k (this w)) eqn:Hr.
  - cbn [for_each].
    rewrite bind_ret_tt. unfold bind at 1, lift at 1, elements. cbn [this snd].
    rewrite array_at_defined. reflexivity.
  - rewrite (unreachable_empty _ _ Hr). reflexivity.
Qed.

End DispatchFacts.

(** ** A dispatch pass applies functions of its copy only *)

Section PassFacts.

Variable behaviour : ref -> list value -> M Store value.

Lemma array_at_removed (k : string) (x : value) (w : Run) :
  array_at k (this (removed (EString k) x w)) =
  remove_last x (array_at k (this w)).
Proof.
  unfold removed. cbn [this].
  rewrite array_at_removeListener, String.eqb_refl. reflexivity.
Qed.

Lemma fire_calls (evt : EventKey) (args : option (list value))
    (l : list value) (w : Run) :
  exists new,
    calls (exec (fire behaviour evt args l) w) = calls w ++ new /\
    forall e, In e new -> registered (VFunction (callee e)) l.
Proof.
  revert w. induction l as [|x rest IH]; intros w.
  - exists []. split; [symmetry; apply app_nil_r | contradiction].
  - unfold exec. rewrite fire_cons. cbv zeta.
    set (w1 := if strict_equals (get_once x) (VBoolean true)
               then removed evt (get_listener x) w else w).
    assert (Hc : calls w1 = calls w).
    { unfold w1. destruct (strict_equals _ _); reflexivity. }
    clearbody w1.
    destruct (get_listener x) as [| | | | |c| | |] eqn:Hl;
      try (exists []; simpl; rewrite Hc, app_nil_r; split;
           [reflexivity | contradiction]).
    set (a := match args with Some a => a | None => [] end).
    set (w2 := {| this := exec (behaviour c a) (this w1);
                  calls := calls w1 ++ [mkCall c a (this w1)] |}).
    assert (Hhead : registered (VFunction c) (x :: rest)).
    { left. exact Hl. }
    destruct (outcome (behaviour c a) (this w1)) as [v|e].
    + set (w3 := if strict_equals v (sentinel_of (this w2))
                 then removed evt (VFunction c) w2 else w2).
      assert (Hc3 : calls w3 = calls w ++ [mkCall c a (this w1)]).
      { unfold w3. destruct (strict_equals _ _); simpl; rewrite Hc; reflexivity. }
      destruct (IH w3) as (new & Hnew & Hreg).
      exists (mkCall c a (this w1) :: new). split.
      * unfold exec in Hnew. rewrite Hnew, Hc3, <- app_assoc. reflexivity.
      * intros e [<-|He]; [exact Hhead|]. right. apply Hreg. exact He.
    + exists [mkCall c a (this w1)]. simpl. rewrite Hc. split; [reflexivity|].
      intros e' [<-|[]]. exact Hhead.
Qed.

Lemma fire_callees_mono (evt : EventKey) (args : option (list value))
    (l : list value) (w : Run) (c : ref) :
  In c (callees w) -> In c (callees (exec (fire behaviour evt args l) w)).
Proof.
  intros H. unfold callees in *.
  destruct (fire_calls evt args l w) as (new & -> & _).
  rewrite map_app. apply in_or_app. left. exact H.
Qed.

Lemma fire_callees_registered (evt : EventKey) (args : option (list value))
    (l : list value) (w : Run) (c : ref) :
  In c (callees (exec (fire behaviour evt args l) w)) ->
  In c (callees w) \/ registered (VFunction c) l.
Proof.
  unfold callees.
  destruct (fire_calls evt args l w) as (new & -> & Hreg).
  rewrite map_app. intros H. apply in_app_or in H.
  destruct H as [H|H]; [left; exact H|]. right.
  apply in_map_iff in H. destruct H as (e & <- & He). apply Hreg. exact He.
Qed.

End PassFacts.

(** ** A listener added during a pass *)

Lemma registered_remove_last (c g : ref) (l : list value) :
  c <> g -> registered (VFunction g) l ->
  registered (VFunction g) (remove_last (VFunction c) l).
Proof.
  intros Hne H. unfold registered, flattenListeners in *.
  apply in_map_iff in H. destruct H as (y & Hy & Hin).
  apply in_map_iff. exists y. split; [exact Hy|].
  apply remove_last_keeps; [exact Hin|]. rewrite Hy. simpl.
  apply Nat.eqb_neq. congruence.
Qed.

Lemma from_copy_remove_last (g : ref) (L l : list value) (x : value) :
  from_copy g L l -> from_copy g L (remove_last x l).
Proof.
  unfold from_copy. rewrite !Forall_forall. intros H y Hy.
  apply H. eapply In_remove_last. exact Hy.
Qed.

Lemma array_at_add_function (k : string) (g : ref) (t : Store) :
  array_at k (exec (addListener (EString k) (VFunction g)) t) =
  if reachable k t && (indexOfListener (array_at k t) (VFunction g) =? -1)%Z
  then array_at k t ++ [VObject (next_ref t) (VFunction g) (VBoolean false)]
  else array_at k t.
Proof.
  rewrite array_at_addListener by reflexivity.
  rewrite String.eqb_refl. simpl. destruct (reachable k t); reflexivity.
Qed.

Lemma has_update {A} (k k' : string) (f : A -> A) (o : Obj.t A) :
  Obj.has k' (Obj.update k f o) = Obj.has k' o.
Proof.
  unfold Obj.has. destruct (String.eqb k k') eqn:E.
  - apply String.eqb_eq in E. subst k'. rewrite ObjFacts.get_update_same.
    destruct (Obj.get k o); reflexivity.
  - rewrite ObjFacts.get_update_other; [reflexivity|].
    intros ->. rewrite String.eqb_refl in E. discriminate.
Qed.

Lemma reachable_removeListener (k : string) (x : value) (s : Store) :
  reachable k (exec (removeListener (EString k) x) s) = reachable k s.
Proof.
  unfold exec. rewrite removeListener_string. cbn [snd]. cbv zeta.
  destruct (_ =? _)%Z; [apply reachable_defined|].
  unfold reachable. rewrite events_of_with_events, has_update.
  apply reachable_defined.
Qed.

Lemma registered_reachable (k : string) (x : value) (s : Store) :
  registered x (array_at k s) -> reachable k s = true.
Proof.
  intros H. apply nonempty_reachable. intros Hnil. rewrite Hnil in H.
  destruct H.
Qed.

Section AddedDuringPass.

Variable behaviour : ref -> list value -> M Store value.
Variables (k : string) (f g : ref) (L : list value).

Hypothesis f_adds : adds_listener behaviour k f g.
Hypothesis others_keep :
  forall c, c <> f -> registered (VFunction c) L -> keeps_array behaviour k c.
Hypothesis g_new : ~ registered (VFunction g) L.

Lemma returns_normally (c : ref) (a : list value) (t : Store) :
  registered (VFunction c) L ->
  exists v, outcome (behaviour c a) t = Normal v.
Proof.
  intros Hc. destruct (Nat.eq_dec c f) as [->|Hne].
  - apply f_adds.
  - apply (others_keep c Hne Hc).
Qed.

Lemma behaviour_from_copy (c : ref) (a : list value) (t : Store) :
  registered (VFunction c) L ->
  from_copy g L (array_at k t) ->
  from_copy g L (array_at k (exec (behaviour c a) t)).
Proof.
  intros Hc Hinv. destruct (Nat.eq_dec c f) as [->|Hne].
  - destruct (f_adds a t) as [_ ->]. rewrite array_at_add_function.
    destruct (_ && _); [|exact Hinv].
    apply Forall_app. split; [exact Hinv|].
    constructor; [|constructor]. exists g. simpl. auto.
  - destruct (others_keep c Hne Hc a t) as [_ ->]. exact Hinv.
Qed.

Lemma behaviour_keeps_added (c : ref) (a : list value) (t : Store) :
  registered (VFunction c) L ->
  registered (VFunction g) (array_at k t) \/ (c = f /\ reachable k t = true) ->
  registered (VFunction g) (array_at k (exec (behaviour c a) t)).
Proof.
  intros Hc Hq. destruct (Nat.eq_dec c f) as [->|Hne].
  - destruct (f_adds a t) as [_ ->]. rewrite array_at_add_function.
    destruct (indexOfListener (array_at k t) (VFunction g) =? -1)%Z eqn:E.
    + destruct Hq as [Hq|[_ Hr]].
      * destruct (reachable k t); simpl; [|exact Hq].
        unfold registered, flattenListeners. rewrite map_app.
        apply in_or_app. left. exact Hq.
      * rewrite Hr. simpl. unfold registered, flattenListeners.
        rewrite map_app. apply in_or_app. right. simpl. auto.
    + rewrite andb_false_r. apply Z.eqb_neq in E.
      destruct (indexOfListener_from_found _ _ _ E) as (j & _ & Hj & Heq).
      apply strict_equals_function in Heq.
      unfold registered, flattenListeners. rewrite <- Heq.
      apply in_map. apply nth_In. exact Hj.
  - destruct (others_keep c Hne Hc a t) as [_ ->].
    destruct Hq as [Hq|[Hq _]]; [exact Hq | contradiction].
Qed.

(** The pass in which [f] runs ends with [g] in the live array. *)
Lemma first_pass (args : option (list value)) (rest : list value) :
  forall w,
    (forall x, In x rest ->
       exists c, get_listener x = VFunction c /\ registered (VFunction c) L) ->
    from_copy g L (array_at k (this w)) ->
    registered (VFunction g) (array_at k (this w)) \/
    (registered (VFunction f) rest /\
     registered (VFunction f) (array_at k (this w))) ->
    from_copy g L
      (array_at k (this (exec (fire behaviour (EString k) args rest) w))) /\
    registered (VFunction g)
      (array_at k (this (exec (fire behaviour (EString k) args rest) w))).
Proof.
  induction rest as [|x rest IH]; intros w Hrest Hinv Hq.
  - simpl. split; [exact Hinv|]. destruct Hq as [Hq|[[] _]]. exact Hq.
  - unfold exec. rewrite fire_cons. cbv zeta.
    destruct (Hrest x (or_introl eq_refl)) as (c & Hx & Hc).
    assert (Hcg : c <> g) by (intros ->; contradiction).
    rewrite Hx.
    set (w1 := if strict_equals (get_once x) (VBoolean true)
               then removed (EString k) (VFunction c) w else w).
    assert (Hinv1 : from_copy g L (array_at k (this w1))).
    { unfold w1. destruct (strict_equals _ _); [|exact Hinv].
      rewrite array_at_removed. apply from_copy_remove_last. exact Hinv. }
    assert (Hq1 : registered (VFunction g) (array_at k (this w1)) \/
                  (c = f /\ reachable k (this w1) = true) \/
                  (registered (VFunction f) rest /\
                   registered (VFunction f) (array_at k (this w1)))).
    { destruct Hq as [Hq|[Hq Hlive]].
      - left. unfold w1. destruct (strict_equals _ _); [|exact Hq].
        rewrite array_at_removed. apply registered_remove_last; assumption.
      - right. destruct (Nat.eq_dec c f) as [->|Hne].
        + left. split; [reflexivity|]. unfold w1.
          destruct (strict_equals _ _).
          * unfold removed. cbn [this]. rewrite reachable_removeListener.
            eapply registered_reachable. exact Hlive.
          * eapply registered_reachable. exact Hlive.
        + right. split.
          * destruct Hq as [Hq|Hq]; [|exact Hq]. rewrite Hx in Hq. congruence.
          * unfold w1. destruct (strict_equals _ _); [|exact Hlive].
            rewrite array_at_removed. apply registered_remove_last; assumption. }
    clearbody w1.
    set (a := match args with Some a => a | None => [] end).
    destruct (returns_normally c a (this w1) Hc) as (v & Hv). rewrite Hv.
    set (w2 := {| this := exec (behaviour c a) (this w1);
                  calls := calls w1 ++ [mkCall c a (this w1)] |}).
    assert (Hinv2 : from_copy g L (array_at k (this w2))).
    { apply behaviour_from_copy; assumption. }
    assert (Hq2 : registered (VFunction g) (array_at k (this w2)) \/
                  (c <> f /\ registered (VFunction f) rest /\
                   registered (VFunction f) (array_at k (this w2)))).
    { destruct Hq1 as [Hq1|[Hq1|[Hq1 Hlive]]].
      - left. apply behaviour_keeps_added; auto.
      - left. apply behaviour_keeps_added; auto.
      - destruct (Nat.eq_dec c f) as [->|Hne].
        + left. apply behaviour_keeps_added; [exact Hc|]. right.
          split; [reflexivity|]. eapply registered_reachable. exact Hlive.
        + right. split; [exact Hne|]. split; [exact Hq1|].
          unfold w2. cbn [this].
          destruct (others_keep c Hne Hc a (this w1)) as [_ ->]. exact Hlive. }
    clearbody w2.
    apply IH.
    + intros y Hy. apply Hrest. right. exact Hy.
    + destruct (strict_equals _ _); [|exact Hinv2].
      rewrite array_at_removed. apply from_copy_remove_last. exact Hinv2.
    + destruct Hq2 as [Hq2|(Hne & Hq2 & Hlive)].
      * left. destruct (strict_equals _ _); [|exact Hq2].
        rewrite array_at_removed. apply registered_remove_last; assumption.
      * right. split; [exact Hq2|].
        destruct (strict_equals _ _); [|exact Hlive].
        rewrite array_at_removed. apply registered_remove_last; assumption.
Qed.

(** A pass over a copy that holds [g] applies [g]. *)
Lemma next_pass (evt : EventKey) (args : option (list value))
    (l : list value) :
  forall w,
    from_copy g L l -> registered (VFunction g) l ->
    In g (callees (exec (fire behaviour evt args l) w)).
Proof.
  induction l as [|x rest IH]; intros w Hinv Hq; [destruct Hq|].
  unfold exec. rewrite fire_cons. cbv zeta.
  inversion Hinv as [|x' rest' (c & Hx & Hc) Hrest]; subst.
  rewrite Hx.
  set (w1 := if strict_equals (get_once x) (VBoolean true)
             then removed evt (VFunction c) w else w).
  clearbody w1.
  set (a := match args with Some a => a | None => [] end).
  set (w2 := {| this := exec (behaviour c a) (this w1);
                calls := calls w1 ++ [mkCall c a (this w1)] |}).
  destruct (Nat.eq_dec c g) as [->|Hne].
  - assert (Hin : In g (callees w2)).
    { unfold callees, w2. simpl. rewrite map_app. apply in_or_app.
      right. simpl. auto. }
    destruct (outcome (behaviour g a) (this w1)) as [v|e]; [|exact Hin].
    apply fire_callees_mono.
    destruct (strict_equals _ _); [|exact Hin]. exact Hin.
  - destruct Hc as [Hc|Hc]; [contradiction|].
    destruct (returns_normally c a (this w1) Hc) as (v & ->).
    apply IH; [exact Hrest|].
    destruct Hq as [Hq|Hq]; [|exact Hq].
    rewrite Hx in Hq. congruence.
Qed.

End AddedDuringPass.

(** ** Snapshot isolation *)


Lemma one_adds_two_adds : adds_listener one_adds_two "foo" 1 2.
Proof.
  intros a t. unfold one_adds_two. simpl.
  pose proof (addListener_string_outcome "foo" (VFunction 2) t eq_refl) as H.
  unfold outcome, exec, bind in *.
  destruct (addListener (EString "foo") (VFunction 2) t) as [c t'].
  simpl in H. subst c. simpl. split; [eexists|]; reflexivity.
Qed.



(** ** The error of the add path *)

Lemma isValidListener_shape (x : value) :
  isValidListener x = true <-> listener_shape x.
Proof.
  induction x as [| | b | n | s | f | o r | o l IHl c IHc | o items];
    simpl; split; intros H; try discriminate; try (inversion H; fail);
    try constructor; try reflexivity.
  - destruct b; discriminate.
  - destruct (negb (n =? 0)%Z); discriminate.
  - destruct (negb (s =? "")%string); discriminate.
  - apply IHl. exact H.
  - inversion H; subst. apply IHl. assumption.
Qed.

Lemma for_each_never {S A} (x : exn) (body : A -> M S unit) (l : list A)
    (s : S) :
  (forall a t, outcome (body a) t <> Abrupt x) ->
  outcome (for_each l body) s <> Abrupt x.
Proof.
  intros Hbody. revert s.
  induction l as [|a rest IH]; intros s; simpl; [discriminate|].
  unfold outcome, bind. specialize (Hbody a s). unfold outcome in Hbody.
  destruct (body a s) as [[[]|e] s']; simpl in *; [apply IH | exact Hbody].
Qed.

Lemma fire_never (behaviour : ref -> list value -> M Store value)
    (x : exn) (evt : EventKey) (args : option (list value)) (l : list value) :
  x <> NotCallable ->
  (forall c a t, outcome (behaviour c a) t <> Abrupt x) ->
  forall w, outcome (fire behaviour evt args l) w <> Abrupt x.
Proof.
  intros Hx Hb. induction l as [|y rest IH]; intros w; [discriminate|].
  unfold outcome. rewrite fire_cons. cbv zeta.
  destruct (get_listener y); simpl; try congruence.
  match goal with
  | |- context [outcome (behaviour ?c ?a) ?t] =>
      pose proof (Hb c a t) as Hc; destruct (outcome (behaviour c a) t)
  end.
  - apply IH.
  - simpl. intros Heq. apply Hc. congruence.
Qed.

Lemma emitEvent_never (behaviour : ref -> list value -> M Store value)
    (x : exn) (evt : EventKey) (args : option (list value)) (w : Run) :
  x <> NotCallable ->
  (forall c a t, outcome (behaviour c a) t <> Abrupt x) ->
  outcome (emitEvent behaviour evt args) w <> Abrupt x.
Proof.
  intros Hx Hb. unfold outcome, emitEvent, bind at 1, lift at 1.
  destruct (getListenersAsObject_total evt (this w)) as (response & ->).
  apply for_each_never. intros kv t. unfold outcome, bind, lift, elements. simpl.
  apply fire_never; assumption.
Qed.



(** ** Bulk manipulation *)

Lemma while_down_app (body : value -> M Store unit) (i : nat)
    (l l' : list value) (s : Store) :
  i <= List.length l ->
  while_down i (l ++ l') body s = while_down i l body s.
Proof.
  revert s. induction i as [|i IH]; intros s Hi; simpl; [reflexivity|].
  unfold bind. rewrite app_nth1 by lia.
  destruct (body (nth i l VUndefined) s) as [[[]|e] s']; [|reflexivity].
  apply IH. lia.
Qed.

Lemma addListener_outcome (evt : EventKey) (x : value) (s : Store) :
  isValidListener x = true ->
  outcome (addListener evt x) s = Normal tt.
Proof.
  intros H. unfold outcome, addListener. rewrite H. simpl. unfold bind.
  destruct (getListenersAsObject_total evt s) as (response & ->).
  apply for_each_normal. intros kv t. unfold outcome, bind, elements. simpl.
  destruct (indexOfListener _ x =? -1)%Z; simpl; [|reflexivity].
  destruct (String.eqb (typeof x) "object"); reflexivity.
Qed.

Lemma while_down_all (body : value -> M Store unit) (l : list value) :
  (forall x, In x l -> forall t, outcome (body x) t = Normal tt) ->
  forall s,
    while_down (List.length l) l body s =
    (Normal tt, applied_in_turn body (rev l) s).
Proof.
  induction l as [|x rest IH] using rev_ind; intros Hb s; [reflexivity|].
  rewrite rev_app_distr, length_app, Nat.add_comm. cbn [List.length plus].
  cbn [while_down rev app applied_in_turn fold_left]. unfold bind.
  rewrite nth_middle.
  assert (Hin : In x (rest ++ [x]))
    by (apply in_or_app; right; left; reflexivity).
  rewrite (normal_run _ _ (Hb x Hin s)).
  rewrite while_down_app by lia.
  apply IH. intros y Hy. apply Hb. apply in_or_app. left. exact Hy.
Qed.

Lemma while_down_stops (body : value -> M Store unit) (e : exn)
    (pre : list value) (x : value) (post : list value) :
  (forall t, body x t = (Abrupt e, t)) ->
  (forall y, In y post -> forall t, outcome (body y) t = Normal tt) ->
  forall s,
    while_down (List.length (pre ++ x :: post)) (pre ++ x :: post) body s =
    (Abrupt e, applied_in_turn body (rev post) s).
Proof.
  intros Hx.
  induction post as [|y rest IH] using rev_ind; intros Hb s.
  - rewrite length_app, Nat.add_comm. cbn [List.length plus].
    cbn [while_down]. unfold bind. rewrite nth_middle, Hx. reflexivity.
  - replace (pre ++ x :: rest ++ [y])%list
      with ((pre ++ x :: rest) ++ [y])%list
      by (rewrite <- app_assoc; reflexivity).
    rewrite rev_app_distr, length_app, Nat.add_comm. cbn [List.length plus].
    cbn [while_down rev app applied_in_turn fold_left]. unfold bind.
    rewrite nth_middle.
    assert (Hin : In y (rest ++ [y]))
      by (apply in_or_app; right; left; reflexivity).
    rewrite (normal_run _ _ (Hb y Hin s)).
    rewrite while_down_app by lia.
    apply IH. intros z Hz. apply Hb. apply in_or_app. left. exact Hz.
Qed.

(** C9.  For an exact key or a pattern and an array of listeners,
    [manipulateListeners] calls the singular method on the entries of the
    array from the last one to the first, each call on the store the one
    before it left.  Removing, [removeListener] is called on every entry
    and the method returns normally.  Adding, [addListener] is called on
    every entry when every entry passes [isValidListener]; otherwise the
    method throws at the last entry that does not, after [addListener] was
    called on the entries behind it, and the entries before it are never
    reached. *)
Theorem manipulateListeners_in_reverse (evt : EventKey)
    (listeners : list value) (s : Store) :
  manipulateListeners true (OneEvent evt) listeners s =
    (Normal tt, applied_in_turn (removeListener evt) (rev listeners) s) /\
  (Forall (fun x => isValidListener x = true) listeners ->
   manipulateListeners false (OneEvent evt) listeners s =
     (Normal tt, applied_in_turn (addListener evt) (rev listeners) s)) /\
  (forall pre x post,
     listeners = (pre ++ x :: post)%list ->
     isValidListener x = false ->
     Forall (fun y => isValidListener y = true) post ->
     manipulateListeners false (OneEvent evt) listeners s =
       (Abrupt InvalidListener,
        applied_in_turn (addListener evt) (rev post) s)).
Proof.
  unfold manipulateListeners, single. split; [|split].
  - apply while_down_all. intros x _ t. apply removeListener_outcome.
  - intros Hall. apply while_down_all. intros x Hx t.
    apply addListener_outcome. rewrite Forall_forall in Hall.
    apply Hall. exact Hx.
  - intros pre x post -> Hx Hall. apply while_down_stops.
    + intros t. apply addListener_invalid. exact Hx.
    + intros y Hy t. apply addListener_outcome. rewrite Forall_forall in Hall.
      apply Hall. exact Hy.
Qed.

Lemma manipulateListeners_in_reverse_witness :
  manipulateListeners false (OneEvent (EString "bar"))
    (map VFunction [5; 6; 7]) two_events =
  (Normal tt,
   applied_in_turn (addListener (EString "bar")) (map VFunction [7; 6; 5])
     two_events) /\
  manipulateListeners false (OneEvent (EString "bar"))
    [VFunction 5; VNumber 42; VFunction 7] two_events =
  (Abrupt InvalidListener,
   applied_in_turn (addListener (EString "bar")) [VFunction 7] two_events).
Proof.
  split.
  - apply (proj1 (proj2 (manipulateListeners_in_reverse (EString "bar")
                           (map VFunction [5; 6; 7]) two_events))).
    repeat constructor.
  - apply (proj2 (proj2 (manipulateListeners_in_reverse (EString "bar")
                           [VFunction 5; VNumber 42; VFunction 7] two_events))
             [VFunction 5] (VNumber 42) [VFunction 7]).
    + reflexivity.
    + reflexivity.
    + repeat constructor.
Defined.

(** [addListeners("foo", [f5, 42, f7])] adds [f7], throws at [42] and
    never reaches [f5], where [addListener] called on each of the three
    entries registers [f5] as well. *)
Lemma addListeners_stops_at_invalid_entry :
  let l := [VFunction 5; VNumber 42; VFunction 7] in
  let s' := exec (addListeners (OneEvent (EString "foo")) l) two_events in
  outcome (addListeners (OneEvent (EString "foo")) l) two_events =
    Abrupt InvalidListener /\
  flattenListeners (array_at "foo" s') = [VFunction 1; VFunction 7] /\
  flattenListeners
    (array_at "foo"
       (applied_in_turn (addListener (EString "foo")) (rev l) two_events)) =
    [VFunction 1; VFunction 7; VFunction 5].
Proof.
  vm_compute. repeat split; reflexivity.
Qed.

(** ** Registering a fire-once listener twice *)

Lemma refs_below_fresh (n m : ref) (v l c : value) :
  refs_below n v = true -> n <= m -> strict_equals v (VObject m l c) = false.
Proof.
  intros Hv Hle. destruct v; try reflexivity. simpl in *.
  apply andb_prop in Hv. destruct Hv as [Hv _].
  apply andb_prop in Hv. destruct Hv as [Hv _].
  apply Nat.ltb_lt in Hv. apply Nat.eqb_neq. lia.
Qed.

Lemma refs_below_listener (n : ref) (v : value) :
  refs_below n v = true -> refs_below n (get_listener v) = true.
Proof.
  destruct v; simpl; try reflexivity. intros H.
  apply andb_prop in H. destruct H as [H _].
  apply andb_prop in H. destruct H as [_ H]. exact H.
Qed.

Lemma allocated_array (k : string) (s : Store) :
  allocated s = true ->
  forall y, In y (array_at k s) -> refs_below (next_ref s) y = true.
Proof.
  unfold allocated, array_at. intros H y Hy.
  destruct (Obj.get k (events_of s)) as [l|] eqn:E; [|contradiction].
  rewrite forallb_forall in H.
  assert (Hin : In (k, l) (events_of s)).
  { clear H Hy. induction (events_of s) as [|[k' v] rest IH]; [discriminate|].
    simpl in E. destruct (String.eqb k k') eqn:Ek.
    - apply String.eqb_eq in Ek. injection E as ->. subst. left. reflexivity.
    - right. apply IH. exact E. }
  specialize (H _ Hin). simpl in H. rewrite forallb_forall in H.
  apply H. exact Hy.
Qed.

Lemma array_at_addOnceListener (k : string) (x : value) (s : Store) :
  isValidListener x = true ->
  array_at k (exec (addOnceListener (EString k) x) s) =
  let record := VObject (next_ref s) x (VBoolean true) in
  if reachable k s && (indexOfListener (array_at k s) record =? -1)%Z
  then array_at k s ++ [record] else array_at k s.
Proof.
  intros Hx. unfold exec, addOnceListener, bind at 1, new_record.
  set (s1 := {| _onceReturnValue := _onceReturnValue s;
                _events := _events s; next_ref := S (next_ref s) |}).
  pose proof (array_at_addListener k k
                (VObject (next_ref s) x (VBoolean true)) s1) as H.
  unfold exec in H. rewrite H by (simpl; exact Hx).
  rewrite String.eqb_refl. cbv zeta.
  change (reachable k s1) with (reachable k s).
  change (array_at k s1) with (array_at k s).
  destruct (reachable k s); reflexivity.
Qed.

Lemma next_ref_addOnceListener_fresh (k : string) (x : value) (s : Store) :
  next_ref (exec (addOnceListener (EString k) x) s) = S (next_ref s).
Proof.
  unfold exec, addOnceListener, bind at 1, new_record, addListener.
  destruct (negb _); [reflexivity|].
  unfold bind at 1. rewrite getListenersAsObject_string.
  destruct (reachable k _); [|reflexivity].
  simpl. unfold bind, elements. simpl.
  destruct (_ =? _)%Z; reflexivity.
Qed.

Lemma reachable_addOnceListener (k : string) (x : value) (s : Store) :
  inherited k = false ->
  reachable k (exec (addOnceListener (EString k) x) s) = true.
Proof. intros H. apply reachable_plain. exact H. Qed.




(** ** Removing what is not there *)

Lemma array_at_getEvents (k : string) (s : Store) :
  array_at k (exec _getEvents s) = array_at k s.
Proof.
  unfold exec, _getEvents, array_at, events_of.
  destruct (_events s) eqn:E; simpl; rewrite ?E; reflexivity.
Qed.

Lemma events_of_getEvents (s : Store) :
  events_of (exec _getEvents s) = events_of s.
Proof.
  unfold exec, _getEvents, events_of.
  destruct (_events s) eqn:E; simpl; rewrite ?E; reflexivity.
Qed.

Lemma removeListener_nothing_found (x : value) (response : Obj.t string)
    (t : Store) :
  (forall kv, In kv response ->
              indexOfListener (array_at (snd kv) t) x = (-1)%Z) ->
  for_each response (fun kv =>
    live <- elements (snd kv) ;;
    let index := indexOfListener live x in
    if negb (index =? -1)%Z
    then mutate (snd kv) (splice1 index)
    else ret tt) t = (Normal tt, t).
Proof.
  induction response as [|kv rest IH]; intros H; [reflexivity|].
  cbn [for_each]. unfold bind at 1. unfold bind at 1, elements.
  rewrite (H kv (or_introl eq_refl)). simpl.
  apply IH. intros kv' Hin. apply H. right. exact Hin.
Qed.

Lemma delete_missing {A} (k : string) (o : Obj.t A) :
  Obj.get k o = None -> Obj.delete k o = o.
Proof.
  unfold Obj.delete.
  induction o as [|[k' v] rest IH]; simpl; intros H; [reflexivity|].
  destruct (String.eqb k k'); [discriminate|]. simpl. rewrite IH; auto.
Qed.

Lemma removeEvent_missing_key (k : string) (t : Store) :
  Obj.has k (events_of t) = false ->
  events_of (exec (removeEvent (Some (EString k))) t) = events_of t.
Proof.
  unfold Obj.has, exec, removeEvent, bind, _getEvents, events_of.
  destruct (_events t) as [ev|]; simpl; [|reflexivity].
  destruct (Obj.get k ev) eqn:E; [discriminate|]. intros _.
  apply delete_missing. exact E.
Qed.

Lemma removeEvent_no_match (r : RegExp) (t : Store) :
  (forall key, In key (Obj.keys (events_of t)) -> test r key = false) ->
  events_of (exec (removeEvent (Some (ERegExp r))) t) = events_of t.
Proof.
  unfold exec, removeEvent, bind, _getEvents, events_of.
  destruct (_events t) as [ev|]; simpl; [|reflexivity].
  intros H. induction ev as [|[k v] rest IH]; [reflexivity|].
  simpl. rewrite (H k (or_introl eq_refl)). simpl. f_equal.
  apply IH. intros key Hin. apply H. right. exact Hin.
Qed.

Lemma resolve_string (k : string) (s : Store) :
  resolve (EString k) s = if reachable k s then [(k, k)] else [].
Proof.
  unfold resolve, outcome. rewrite getListenersAsObject_string. reflexivity.
Qed.

Lemma unregistered_exact (k : string) (x : value) (s : Store) :
  indexOfListener (array_at k s) x = (-1)%Z ->
  unregistered_at (EString k) x s.
Proof.
  intros H kv Hin. rewrite resolve_string in Hin.
  destruct (reachable k s); [|destruct Hin].
  destruct Hin as [<-|[]]. exact H.
Qed.

Lemma array_at_resolved (evt : EventKey) (k : string) (s : Store) :
  array_at k (exec (getListenersAsObject evt) s) = array_at k s.
Proof.
  destruct evt as [k0|r]; unfold exec.
  - rewrite getListenersAsObject_string. apply array_at_defined.
  - rewrite getListenersAsObject_regexp. apply array_at_getEvents.
Qed.

Lemma resolve_resolved (evt : EventKey) (s : Store) :
  resolve evt (exec (getListenersAsObject evt) s) = resolve evt s.
Proof.
  destruct evt as [k|r].
  - unfold exec at 1. rewrite getListenersAsObject_string. cbn [snd].
    rewrite !resolve_string, reachable_defined. reflexivity.
  - unfold resolve, outcome. rewrite !getListenersAsObject_regexp. cbn [fst].
    unfold exec at 1. rewrite getListenersAsObject_regexp. cbn [snd].
    rewrite events_of_getEvents. reflexivity.
Qed.

Lemma removeListener_unregistered_run (evt : EventKey) (x : value)
    (s : Store) :
  unregistered_at evt x s ->
  removeListener evt x s = (Normal tt, exec (getListenersAsObject evt) s).
Proof.
  intros H. unfold removeListener, bind at 1.
  unfold unregistered_at, resolve, outcome in H.
  destruct (getListenersAsObject_total evt s) as (response & Hr).
  rewrite Hr in H |- *. simpl in H.
  apply removeListener_nothing_found. intros kv Hin.
  rewrite <- (H kv Hin). f_equal. apply array_at_resolved.
Qed.

Lemma unregistered_resolved (evt : EventKey) (x : value) (s : Store) :
  unregistered_at evt x s ->
  unregistered_at evt x (exec (getListenersAsObject evt) s).
Proof.
  intros H kv Hin. rewrite resolve_resolved in Hin.
  rewrite array_at_resolved. apply H. exact Hin.
Qed.

Lemma removeListeners_nothing_found (evt : EventKey) (l : list value)
    (i : nat) :
  forall t,
    i <= List.length l ->
    (forall x, In x l -> unregistered_at evt x t) ->
    outcome (while_down i l (removeListener evt)) t = Normal tt /\
    forall k, array_at k (exec (while_down i l (removeListener evt)) t) =
              array_at k t.
Proof.
  induction i as [|i IH]; intros t Hi H; [split; reflexivity|].
  cbn [while_down]. unfold outcome, exec, bind.
  assert (Hx : unregistered_at evt (nth i l VUndefined) t).
  { apply H. apply nth_In. lia. }
  rewrite (removeListener_unregistered_run evt _ t Hx).
  destruct (IH (exec (getListenersAsObject evt) t)) as [Ho Ha].
  - lia.
  - intros x Hin. apply unregistered_resolved. apply H. exact Hin.
  - split; [exact Ho|]. intros k. unfold exec in Ha at 1. rewrite Ha.
    apply array_at_resolved.
Qed.

Lemma removeListeners_map_nothing_found (m : Obj.t value) :
  forall t t0,
    (forall k, array_at k t = array_at k t0) ->
    (forall iv, In iv m ->
       forall x,
         In x (if String.eqb (typeof (snd iv)) "function" then [snd iv]
               else items_of (snd iv)) ->
         indexOfListener (array_at (fst iv) t0) x = (-1)%Z) ->
    forall k,
      array_at k
        (exec (for_each m (fun iv =>
                 if truthy (snd iv)
                 then
                   if String.eqb (typeof (snd iv)) "function"
                   then removeListener (EString (fst iv)) (snd iv)
                   else while_down (List.length (items_of (snd iv)))
                          (items_of (snd iv))
                          (removeListener (EString (fst iv)))
                 else ret tt)) t) = array_at k t0.
Proof.
  induction m as [|[i v] rest IH]; intros t t0 Hsame H k; [apply Hsame|].
  cbn [for_each]. unfold exec, bind. cbn [fst snd].
  assert (Hrest : forall iv, In iv rest ->
            forall x,
              In x (if String.eqb (typeof (snd iv)) "function" then [snd iv]
                    else items_of (snd iv)) ->
              indexOfListener (array_at (fst iv) t0) x = (-1)%Z).
  { intros iv Hin. apply H. right. exact Hin. }
  pose proof (H (i, v) (or_introl eq_refl)) as Hv. cbn [fst snd] in Hv.
  destruct (truthy v).
  - destruct (String.eqb (typeof v) "function").
    + assert (Hx : unregistered_at (EString i) v t).
      { apply unregistered_exact. rewrite Hsame. apply Hv. left. reflexivity. }
      rewrite (removeListener_unregistered_run _ _ t Hx).
      apply (IH _ t0); [|exact Hrest].
      intros k'. rewrite array_at_resolved. apply Hsame.
    + destruct (removeListeners_nothing_found (EString i) (items_of v)
                  (List.length (items_of v)) t (le_n _)) as [Ho Ha].
      { intros x Hin. apply unregistered_exact. rewrite Hsame.
        apply Hv. exact Hin. }
      unfold outcome, exec in Ho, Ha.
      destruct (while_down _ _ _ t) as [c t']. simpl in Ho, Ha. subst c.
      apply (IH _ t0); [|exact Hrest].
      intros k'. rewrite Ha. apply Hsame.
  - apply (IH _ t0); assumption.
Qed.




(** ** What a pattern resolves to *)

Lemma resolve_regexp_shape (r : RegExp) (keys : list string)
    (response : Obj.t string) :
  response = [] \/ (exists owner, response = [(toString r, owner)]) ->
  let response' :=
    fold_left
      (fun response key =>
         if test r key then Obj.set (toString r) key response else response)
      keys response in
  response' = [] \/ (exists owner, response' = [(toString r, owner)]).
Proof.
  revert response. induction keys as [|key rest IH]; intros response H.
  - exact H.
  - simpl. apply IH. destruct (test r key); [|exact H]. right. exists key.
    destruct H as [->|(owner & ->)].
    + apply ObjFacts.set_empty.
    + unfold Obj.set, Obj.has. cbn [Obj.get]. rewrite String.eqb_refl.
      cbn [Obj.update]. rewrite String.eqb_refl. reflexivity.
Qed.

(** Whatever the selector, the mapping has at most one property; for a
    pattern its name is the pattern's text, not a key of the table. *)
Lemma resolve_at_most_one (evt : EventKey) (s : Store) :
  resolve evt s = [] \/
  exists owner,
    resolve evt s =
    [(match evt with EString k => k | ERegExp r => toString r end, owner)].
Proof.
  destruct evt as [k|r].
  - rewrite resolve_string. destruct (reachable k s); [|left; reflexivity].
    right. exists k. reflexivity.
  - unfold resolve, outcome. rewrite getListenersAsObject_regexp. simpl.
    apply resolve_regexp_shape. left. reflexivity.
Qed.

Lemma resolve_regexp_fold (r : RegExp) (keys : list string)
    (found : option string) :
  fold_left
    (fun response key =>
       if test r key then Obj.set (toString r) key response else response)
    keys
    (match found with Some k => [(toString r, k)] | None => [] end) =
  match fold_left (fun found key => if test r key then Some key else found)
          keys found with
  | Some k => [(toString r, k)]
  | None => []
  end.
Proof.
  revert found. induction keys as [|key rest IH]; intros found; [reflexivity|].
  simpl. destruct (test r key); [|apply IH].
  rewrite <- (IH (Some key)). f_equal. destruct found as [k|].
  - unfold Obj.set, Obj.has. cbn [Obj.get]. rewrite String.eqb_refl.
    cbn [Obj.update]. rewrite String.eqb_refl. reflexivity.
  - apply ObjFacts.set_empty.
Qed.

(** A pattern resolves to one property, named by the pattern's text and
    holding the array of the last matching key, or to nothing. *)
Lemma resolve_regexp (r : RegExp) (s : Store) :
  resolve (ERegExp r) s =
  match last_match r (Obj.keys (events_of s)) with
  | Some k => [(toString r, k)]
  | None => []
  end.
Proof.
  unfold resolve, outcome. rewrite getListenersAsObject_regexp. simpl.
  apply (resolve_regexp_fold r (Obj.keys (events_of s)) None).
Qed.

(** C2, evaluated.  With the events "foo" and "bar" in the table and a
    pattern that matches both, [getListeners] returns an object with the
    single property "/^(foo|bar)$/", holding the array of "bar": its keys
    are not the matching keys "foo" and "bar". *)
Theorem getListeners_pattern_single_property :
  Obj.keys (events_of two_events) = ["foo"; "bar"] /\
  test foo_or_bar "foo" = true /\ test foo_or_bar "bar" = true /\
  outcome (getListeners (ERegExp foo_or_bar)) two_events =
  Normal (LObject [("/^(foo|bar)$/", "bar")]).
Proof.
  vm_compute. repeat split; reflexivity.
Qed.

(** C1, evaluated.  With one listener on "foo" and one on "bar", emitting
    with a pattern that matches both keys applies the listener of "bar"
    only, whatever the listeners do: the listener of "foo" is not applied. *)
Theorem emit_pattern_fires_last_key_only
    (behaviour : ref -> list value -> M Store value) :
  flattenListeners (array_at "foo" two_events) = [VFunction 1] /\
  flattenListeners (array_at "bar" two_events) = [VFunction 2] /\
  test foo_or_bar "foo" = true /\ test foo_or_bar "bar" = true /\
  callees (exec (emitEvent behaviour (ERegExp foo_or_bar) None)
             (start two_events)) = [2].
Proof.
  repeat split; try reflexivity.
  unfold exec, emitEvent, bind at 1, lift at 1.
  rewrite getListenersAsObject_regexp.
  change (fold_left _ (Obj.keys (events_of (this (start two_events)))) Obj.empty)
    with [("/^(foo|bar)$/", "bar")].
  cbn [for_each]. rewrite bind_ret_tt. unfold bind at 1, lift at 1, elements.
  cbn [this snd fst start].
  change (array_at "bar" (exec _getEvents two_events))
    with [VObject 1 (VFunction 2) (VBoolean false)].
  rewrite fire_cons. cbv zeta. cbn [get_once get_listener strict_equals].
  destruct (outcome (behaviour 2 []) _) as [v|e]; [|reflexivity].
  cbn [fire]. destruct (strict_equals v _); reflexivity.
Qed.

(** ** Duplicates, and what they do to fire-once listeners *)

(** C5, evaluated.  Calling [addListener("foo", r)] twice with the same
    record [r = { listener: f, once: false }] puts [r] in the array of "foo"
    twice; and after [addListener("foo", f)] and [addOnceListener("foo", f)]
    the array holds two records with the underlying function [f]. *)
Theorem wrapped_listener_is_added_twice :
  (let r := VObject 7 (VFunction 1) (VBoolean false) in
   array_at "foo"
     (exec (addListener (EString "foo") r ;; addListener (EString "foo") r)
        (new_EventEmitter 10)) = [r; r]) /\
  (let s := exec (addListener (EString "foo") (VFunction 1) ;;
                  addOnceListener (EString "foo") (VFunction 1))
              (new_EventEmitter 0) in
   array_at "foo" s =
     [VObject 0 (VFunction 1) (VBoolean false);
      VObject 1 (VFunction 1) (VBoolean true)] /\
   flattenListeners (array_at "foo" s) = [VFunction 1; VFunction 1]).
Proof.
  vm_compute. repeat split; reflexivity.
Qed.

(** C3, evaluated.  With [f] registered fire-once twice, the first record
    is still in the live array when [f] is applied for it; with [f]
    registered fire-once and through a record that is not fire-once, the
    fire-once record is still in the array after the dispatch. *)
Theorem once_record_survives_among_duplicates :
  (let r1 := VObject 0 (VFunction 1) (VBoolean true) in
   let r2 := VObject 1 (VFunction 1) (VBoolean true) in
   array_at "foo" once_twice = [r1; r2] /\
   map (fun c => (callee c, array_at "foo" (receiver c)))
     (calls (exec (emitEvent returns_false (EString "foo") None)
               (start once_twice))) =
   [(1, [r1]); (1, [])]) /\
  (let r1 := VObject 10 (VFunction 1) (VBoolean true) in
   let r2 := VObject 7 (VFunction 1) (VBoolean false) in
   array_at "foo" once_and_record = [r1; r2] /\
   let w := exec (emitEvent returns_false (EString "foo") None)
              (start once_and_record) in
   callees w = [1; 1] /\ array_at "foo" (this w) = [r1]).
Proof.
  vm_compute. repeat split; reflexivity.
Qed.

(** ** The once-sentinel *)

(** C6, evaluated.  On a new emitter, whose sentinel was never set,
    [_getOnceReturnValue] reads [undefined], not [true]; a listener that
    returns nothing is therefore removed when it has run once. *)
Theorem default_sentinel_is_undefined (n : ref) :
  outcome _getOnceReturnValue (new_EventEmitter n) = Normal VUndefined /\
  let s := exec (addListener (EString "foo") (VFunction 1)) (new_EventEmitter n) in
  array_at "foo" s = [VObject n (VFunction 1) (VBoolean false)] /\
  array_at "foo"
    (this (exec (emitEvent returns_undefined (EString "foo") None) (start s))) = [].
Proof.
  repeat split; reflexivity.
Qed.

(** ** Arrays without duplicate functions *)

Lemma NoDup_map_injective {A B} (g : A -> B) (l : list A) (x y : A) :
  NoDup (map g l) -> In x l -> In y l -> g x = g y -> x = y.
Proof.
  induction l as [|a l IH]; simpl; intros Hnd Hx Hy Heq; [contradiction|].
  inversion Hnd as [|b l' Hnotin Hnd']; subst.
  destruct Hx as [->|Hx]; destruct Hy as [->|Hy]; auto.
  - exfalso. apply Hnotin. rewrite Heq. apply in_map. exact Hy.
  - exfalso. apply Hnotin. rewrite <- Heq. apply in_map. exact Hx.
Qed.

Lemma splice1_middle (j : nat) (l : list value) :
  j < List.length l ->
  firstn j l ++ nth j l VUndefined :: skipn (S j) l = l.
Proof.
  intros Hj. apply firstn_skipn_middle. apply nth_error_nth'. exact Hj.
Qed.

Lemma NoDup_splice1 (j : nat) (l : list value) :
  j < List.length l ->
  NoDup (flattenListeners l) ->
  NoDup (flattenListeners (splice1 (Z.of_nat j) l)).
Proof.
  intros Hj Hnd. unfold splice1. rewrite Nat2Z.id.
  rewrite <- (splice1_middle j l Hj) in Hnd.
  unfold flattenListeners in *. rewrite map_app in *. simpl in Hnd.
  eapply NoDup_remove_1. exact Hnd.
Qed.

Lemma NoDup_remove_last (x : value) (l : list value) :
  NoDup (flattenListeners l) -> NoDup (flattenListeners (remove_last x l)).
Proof.
  intros Hnd. unfold remove_last.
  destruct (indexOfListener l x =? -1)%Z eqn:E; [exact Hnd|].
  apply Z.eqb_neq in E.
  destruct (indexOfListener_from_found _ _ _ E) as (j & Hj & Hlt & _).
  unfold indexOfListener. rewrite Hj. apply NoDup_splice1; assumption.
Qed.

Lemma remove_last_removes (r : value) (f : ref) (l : list value) :
  NoDup (flattenListeners l) -> In r l -> get_listener r = VFunction f ->
  ~ In r (remove_last (VFunction f) l).
Proof.
  intros Hnd Hr Hf. unfold remove_last.
  assert (E : indexOfListener l (VFunction f) <> (-1)%Z).
  { apply indexOfListener_registered. unfold registered, flattenListeners.
    rewrite <- Hf. apply in_map. exact Hr. }
  destruct (indexOfListener_from_found _ _ _ E) as (j & Hj & Hlt & Heq).
  apply Z.eqb_neq in E. rewrite E.
  unfold indexOfListener. rewrite Hj.
  apply strict_equals_function in Heq.
  assert (Hnth : nth j l VUndefined = r).
  { apply (NoDup_map_injective get_listener l); auto.
    - apply nth_In. exact Hlt.
    - congruence. }
  unfold splice1. rewrite Nat2Z.id.
  apply NoDup_map_inv in Hnd.
  rewrite <- (splice1_middle j l Hlt) in Hnd. rewrite Hnth in Hnd.
  apply NoDup_remove_2 in Hnd. exact Hnd.
Qed.

Lemma remove_last_other (r : value) (f c : ref) (l : list value) :
  get_listener r = VFunction f -> c <> f ->
  (In r (remove_last (VFunction c) l) <-> In r l).
Proof.
  intros Hf Hne. split; [apply In_remove_last|].
  intros Hr. apply remove_last_keeps; [exact Hr|].
  rewrite Hf. simpl. apply Nat.eqb_neq. congruence.
Qed.

Section UniqueFunctions.

Variable behaviour : ref -> list value -> M Store value.
Variables (k : string) (L : list value) (r : value) (f : ref).

Hypothesis listeners_keep :
  forall c, registered (VFunction c) L -> keeps_array behaviour k c.
Hypothesis r_holds_f : get_listener r = VFunction f.

(** Turns of other functions leave [r] where it is. *)
Lemma fire_frame (args : option (list value)) (rest : list value) :
  forall w,
    (forall x, In x rest ->
       exists c, get_listener x = VFunction c /\ registered (VFunction c) L) ->
    ~ registered (VFunction f) rest ->
    (In r (array_at k (this (exec (fire behaviour (EString k) args rest) w)))
     <-> In r (array_at k (this w))).
Proof.
  induction rest as [|x rest IH]; intros w Hrest Hf; [reflexivity|].
  unfold exec. rewrite fire_cons. cbv zeta.
  destruct (Hrest x (or_introl eq_refl)) as (c & Hx & Hc). rewrite Hx.
  assert (Hne : c <> f).
  { intros ->. apply Hf. left. exact Hx. }
  set (w1 := if strict_equals (get_once x) (VBoolean true)
             then removed (EString k) (VFunction c) w else w).
  assert (H1 : In r (array_at k (this w1)) <-> In r (array_at k (this w))).
  { unfold w1. destruct (strict_equals _ _); [|reflexivity].
    rewrite array_at_removed. apply (remove_last_other r f c); assumption. }
  clearbody w1.
  set (a := match args with Some a => a | None => [] end).
  destruct (listeners_keep c Hc a (this w1)) as [(v & Hv) Hk]. rewrite Hv.
  set (w2 := {| this := exec (behaviour c a) (this w1);
                calls := calls w1 ++ [mkCall c a (this w1)] |}).
  assert (H2 : In r (array_at k (this w2)) <-> In r (array_at k (this w))).
  { unfold w2. cbn [this]. rewrite Hk. exact H1. }
  clearbody w2.
  fold (exec (fire behaviour (EString k) args rest)
          (if strict_equals v (sentinel_of (this w2))
           then removed (EString k) (VFunction c) w2 else w2)).
  rewrite IH.
  - destruct (strict_equals _ _); [|exact H2].
    rewrite array_at_removed. rewrite (remove_last_other r f c) by assumption.
    exact H2.
  - intros y Hy. apply Hrest. right. exact Hy.
  - intros H. apply Hf. right. exact H.
Qed.

(** The turn of [r], in a pass over a copy without duplicate functions. *)
Lemma fire_turn (args : option (list value)) (rest : list value) :
  forall w,
    (forall x, In x rest ->
       exists c, get_listener x = VFunction c /\ registered (VFunction c) L) ->
    NoDup (flattenListeners rest) ->
    NoDup (flattenListeners (array_at k (this w))) ->
    In r rest ->
    In r (array_at k (this w)) ->
    one_turn behaviour k r f w (exec (fire behaviour (EString k) args rest) w).
Proof.
  induction rest as [|x rest IH]; intros w Hrest Hnd Hlive Hin Hr;
    [destruct Hin|].
  unfold exec. rewrite fire_cons. cbv zeta.
  destruct (Hrest x (or_introl eq_refl)) as (c & Hx & Hc). rewrite Hx.
  assert (Hrest' : forall y, In y rest ->
            exists c, get_listener y = VFunction c /\
                      registered (VFunction c) L).
  { intros y Hy. apply Hrest. right. exact Hy. }
  inversion Hnd as [|b l' Hnotin Hnd']; subst. rewrite Hx in Hnotin.
  set (a := match args with Some a => a | None => [] end).
  set (w1 := if strict_equals (get_once x) (VBoolean true)
             then removed (EString k) (VFunction c) w else w).
  assert (Hc1 : calls w1 = calls w).
  { unfold w1. destruct (strict_equals (get_once x) (VBoolean true));
      reflexivity. }
  assert (Hlive1 : NoDup (flattenListeners (array_at k (this w1)))).
  { unfold w1. destruct (strict_equals (get_once x) (VBoolean true));
      [|exact Hlive].
    rewrite array_at_removed. apply NoDup_remove_last. exact Hlive. }
  destruct (listeners_keep c Hc a (this w1)) as [(v & Hv) Hk]. rewrite Hv.
  set (w2 := {| this := exec (behaviour c a) (this w1);
                calls := calls w1 ++ [mkCall c a (this w1)] |}).
  set (w3 := if strict_equals v (sentinel_of (this w2))
             then removed (EString k) (VFunction c) w2 else w2).
  assert (Hc3 : calls w3 = calls w ++ [mkCall c a (this w1)]).
  { unfold w3. destruct (strict_equals v (sentinel_of (this w2)));
      unfold removed, w2; cbn [calls]; rewrite Hc1; reflexivity. }
  assert (Hlive3 : NoDup (flattenListeners (array_at k (this w3)))).
  { unfold w3. destruct (strict_equals v (sentinel_of (this w2))).
    - rewrite array_at_removed. apply NoDup_remove_last.
      unfold w2. cbn [this]. rewrite Hk. exact Hlive1.
    - unfold w2. cbn [this]. rewrite Hk. exact Hlive1. }
  fold (exec (fire behaviour (EString k) args rest) w3).
  destruct Hin as [->|Hin].
  - (* the turn of [r] itself *)
    assert (c = f) by congruence. subst c.
    assert (Hf : ~ registered (VFunction f) rest) by exact Hnotin.
    destruct (fire_calls behaviour (EString k) args rest w3)
      as (post & Hpost & Hreg).
    exists [], (mkCall f a (this w1)), post. cbn [callee receiver arguments].
    split; [rewrite Hpost, Hc3, <- app_assoc; reflexivity|].
    split; [reflexivity|]. split; [intros []|].
    split.
    { intros Hp. apply in_map_iff in Hp. destruct Hp as (e & He & Hin).
      apply Hf. rewrite <- He. apply Hreg. exact Hin. }
    assert (H1 : In r (array_at k (this w1)) <->
                 strict_equals (get_once r) (VBoolean true) = false).
    { unfold w1. destruct (strict_equals (get_once r) (VBoolean true)).
      - rewrite array_at_removed. split; [|discriminate].
        intros H. exfalso. revert H. apply remove_last_removes; assumption.
      - split; auto. }
    split; [exact H1|].
    rewrite (fire_frame args rest w3 Hrest' Hf).
    rewrite Hv. unfold w3.
    change (sentinel_of (this w2))
      with (sentinel_of (exec (behaviour f a) (this w1))).
    destruct (strict_equals v (sentinel_of (exec (behaviour f a) (this w1))))
      eqn:Hs.
    + rewrite array_at_removed. split.
      * intros H. exfalso. revert H. unfold w2. cbn [this]. rewrite Hk.
        destruct (strict_equals (get_once r) (VBoolean true)).
        -- intros H. apply In_remove_last in H. apply H1 in H. discriminate.
        -- apply remove_last_removes; assumption.
      * intros (_ & v' & Hv' & Hs'). injection Hv' as <-. congruence.
    + unfold w2. cbn [this]. rewrite Hk, H1. split.
      * intros H. split; [exact H|]. exists v. auto.
      * intros (H & _). exact H.
  - (* the turn of another record *)
    assert (Hne : c <> f).
    { intros ->. apply Hnotin. unfold flattenListeners.
      rewrite <- r_holds_f. apply in_map. exact Hin. }
    assert (Hr3 : In r (array_at k (this w3))).
    { unfold w3. destruct (strict_equals v (sentinel_of (this w2))).
      - rewrite array_at_removed. apply (remove_last_other r f c); auto.
        unfold w2. cbn [this]. rewrite Hk. unfold w1.
        destruct (strict_equals (get_once x) (VBoolean true)); [|exact Hr].
        rewrite array_at_removed. apply (remove_last_other r f c); auto.
      - unfold w2. cbn [this]. rewrite Hk. unfold w1.
        destruct (strict_equals (get_once x) (VBoolean true)); [|exact Hr].
        rewrite array_at_removed. apply (remove_last_other r f c); auto. }
    destruct (IH w3 Hrest' Hnd' Hlive3 Hin Hr3)
      as (pre & call & post & Hcalls & Hcallee & Hpre & Hpost & Hat & Hafter).
    exists (mkCall c a (this w1) :: pre), call, post.
    split; [rewrite Hcalls, Hc3, <- app_assoc; reflexivity|].
    split; [exact Hcallee|]. split.
    { simpl. intros [H|H]; [congruence | contradiction]. }
    split; [exact Hpost|]. split; [exact Hat | exact Hafter].
Qed.

End UniqueFunctions.

(** X22.  A dispatch for an exact key whose array holds no function twice,
    with listeners that return normally and leave that array alone: every
    record has exactly one turn; a fire-once record is out of the live
    array when its function runs; and afterwards a record is in the array
    exactly when it is not fire-once and its function did not return the
    sentinel. *)
Theorem dispatch_without_duplicates
    (behaviour : ref -> list value -> M Store value)
    (k : string) (s : Store) (args : option (list value))
    (r : value) (f : ref) :
  NoDup (flattenListeners (array_at k s)) ->
  callable (array_at k s) ->
  (forall c, registered (VFunction c) (array_at k s) ->
             keeps_array behaviour k c) ->
  In r (array_at k s) ->
  get_listener r = VFunction f ->
  one_turn behaviour k r f (start s)
    (exec (emitEvent behaviour (EString k) args) (start s)).
Proof.
  intros Hnd Hcall Hkeep Hr Hf.
  unfold exec. rewrite emitEvent_string.
  apply (fire_turn behaviour k (array_at k s) r f Hkeep Hf args (array_at k s)
           {| this := defined k (this (start s)); calls := calls (start s) |}).
  - intros x Hx. unfold callable in Hcall. rewrite Forall_forall in Hcall.
    destruct (Hcall x Hx) as (c & Hc). exists c. split; [exact Hc|].
    unfold registered, flattenListeners. rewrite <- Hc. apply in_map. exact Hx.
  - exact Hnd.
  - cbn [this start]. rewrite array_at_defined. exact Hnd.
  - exact Hr.
  - cbn [this start]. rewrite array_at_defined. exact Hr.
Qed.

Example dispatch_without_duplicates_two_events :
  one_turn returns_false "bar" (VObject 1 (VFunction 2) (VBoolean false)) 2
    (start two_events)
    (exec (emitEvent returns_false (EString "bar") None) (start two_events)).
Proof.
  apply dispatch_without_duplicates.
  - vm_compute. constructor; [intros [] | constructor].
  - vm_compute. constructor; [exists 2; reflexivity | constructor].
  - intros c _ a t. split; [exists (VBoolean false)|]; reflexivity.
  - vm_compute. left. reflexivity.
  - reflexivity.
Defined.

(** Read on an instance that does not own [_onceReturnValue], the sentinel
    is [true]; and a new emitter holds only allocated objects. *)
Lemma sentinel_without_own_property (ev : option ListenerMap) (n : ref) :
  outcome _getOnceReturnValue
    {| _onceReturnValue := None; _events := ev; next_ref := n |} =
  Normal (VBoolean true).
Proof. reflexivity. Qed.

Lemma allocated_new (n : ref) : allocated (new_EventEmitter n) = true.
Proof. reflexivity. Qed.

(** * Further properties of the methods *)

(** ** Searching and splicing *)

Lemma indexOfListener_from_after (i : nat) (l : list value) (x : value)
    (j : nat) :
  indexOfListener_from i l x = Z.of_nat j ->
  forall n, j < n < i ->
            strict_equals (get_listener (nth n l VUndefined)) x = false.
Proof.
  induction i as [|i IH]; simpl; intros H n Hn; [lia|].
  destruct (strict_equals (get_listener (nth i l VUndefined)) x) eqn:E.
  - apply Nat2Z.inj in H. lia.
  - destruct (Nat.eq_dec n i) as [->|Hne]; [exact E|].
    apply IH; [exact H | lia].
Qed.

(** X1.  [indexOfListener] returns -1 exactly when no record of the array
    holds the listener; otherwise it returns an index inside the array at
    which the listener is held, and no later record holds it: the last
    occurrence. *)
Theorem indexOfListener_last_occurrence (l : list value) (x : value) :
  (indexOfListener l x = (-1)%Z /\
   forall y, In y l -> strict_equals (get_listener y) x = false) \/
  (exists j,
     indexOfListener l x = Z.of_nat j /\ j < List.length l /\
     strict_equals (get_listener (nth j l VUndefined)) x = true /\
     forall n, j < n < List.length l ->
               strict_equals (get_listener (nth n l VUndefined)) x = false).
Proof.
  destruct (Z.eq_dec (indexOfListener l x) (-1)) as [E|E].
  - left. split; [exact E|]. apply indexOfListener_none. exact E.
  - right. destruct (indexOfListener_from_found _ _ _ E) as (j & Hj & Hlt & Heq).
    exists j. split; [exact Hj|]. split; [exact Hlt|]. split; [exact Heq|].
    intros n Hn. apply (indexOfListener_from_after _ _ _ _ Hj). exact Hn.
Qed.

Lemma In_skipn_nth (n : nat) (l : list value) (z : value) :
  In z (skipn n l) ->
  exists i, n <= i < List.length l /\ nth i l VUndefined = z.
Proof.
  intros H. destruct (In_nth _ _ VUndefined H) as (m & Hm & Hz).
  rewrite length_skipn in Hm. rewrite nth_skipn in Hz.
  exists (n + m). split; [lia | exact Hz].
Qed.

(** X2.  When some record of the array of [k] holds the listener,
    [removeListener] splices out exactly one record, the last one that
    holds it; the records before and after it keep their order, and the
    arrays of the other keys are untouched. *)
Theorem removeListener_removes_last_match (k : string) (x : value)
    (s : Store) :
  indexOfListener (array_at k s) x <> (-1)%Z ->
  exists pre y post,
    array_at k s = pre ++ y :: post /\
    strict_equals (get_listener y) x = true /\
    (forall z, In z post -> strict_equals (get_listener z) x = false) /\
    array_at k (exec (removeListener (EString k) x) s) = pre ++ post /\
    (forall k', k' <> k ->
       array_at k' (exec (removeListener (EString k) x) s) = array_at k' s).
Proof.
  intros E.
  destruct (indexOfListener_from_found _ _ _ E) as (j & Hj & Hlt & Heq).
  exists (firstn j (array_at k s)), (nth j (array_at k s) VUndefined),
         (skipn (S j) (array_at k s)).
  split; [symmetry; apply splice1_middle; exact Hlt|].
  split; [exact Heq|]. split.
  - intros z Hz. destruct (In_skipn_nth _ _ _ Hz) as (i & Hi & <-).
    apply (indexOfListener_from_after _ _ _ _ Hj). lia.
  - split.
    + rewrite array_at_removeListener, String.eqb_refl. unfold remove_last.
      apply Z.eqb_neq in E. rewrite E.
      unfold indexOfListener. rewrite Hj. unfold splice1.
      rewrite Nat2Z.id. reflexivity.
    + intros k' Hne. rewrite array_at_removeListener.
      destruct (String.eqb k' k) eqn:Ek; [|reflexivity].
      apply String.eqb_eq in Ek. contradiction.
Qed.

Lemma removeListener_removes_last_match_witness :
  exists pre y post,
    array_at "foo" three_listeners = pre ++ y :: post /\
    strict_equals (get_listener y) (VFunction 2) = true /\
    (forall z, In z post -> strict_equals (get_listener z) (VFunction 2) = false) /\
    array_at "foo"
      (exec (removeListener (EString "foo") (VFunction 2)) three_listeners) =
    pre ++ post /\
    (forall k', k' <> "foo" ->
       array_at k'
         (exec (removeListener (EString "foo") (VFunction 2)) three_listeners) =
       array_at k' three_listeners).
Proof.
  apply (removeListener_removes_last_match "foo" (VFunction 2) three_listeners).
  vm_compute. discriminate.
Defined.

(** ** Adding and removing on one key *)

Lemma exec_seq {A B} (m : M Store A) (n : M Store B) (s : Store) (a : A) :
  outcome m s = Normal a -> exec (m ;; n) s = exec n (exec m s).
Proof.
  unfold outcome, exec, bind. destruct (m s) as [c s']. simpl.
  intros ->. reflexivity.
Qed.

Lemma outcome_seq {A B} (m : M Store A) (n : M Store B) (s : Store) (a : A) :
  outcome m s = Normal a -> outcome (m ;; n) s = outcome n (exec m s).
Proof.
  unfold outcome, exec, bind. destruct (m s) as [c s']. simpl.
  intros ->. reflexivity.
Qed.

Lemma addOnceListener_string_outcome (k : string) (x : value) (s : Store) :
  isValidListener x = true ->
  outcome (addOnceListener (EString k) x) s = Normal tt.
Proof.
  intros Hx. unfold addOnceListener, outcome, bind at 1, new_record.
  apply (addListener_string_outcome k (VObject (next_ref s) x (VBoolean true))).
  simpl. exact Hx.
Qed.

Lemma remove_last_appended (x y : value) (l : list value) :
  strict_equals (get_listener y) x = true -> remove_last x (l ++ [y]) = l.
Proof.
  intros H. unfold remove_last, indexOfListener.
  rewrite length_app, Nat.add_1_r. cbn [indexOfListener_from].
  rewrite nth_middle, H.
  assert (E : (Z.of_nat (List.length l) =? -1)%Z = false)
    by (apply Z.eqb_neq; lia).
  rewrite E. unfold splice1. rewrite Nat2Z.id.
  rewrite (skipn_all2 (n := S (List.length l)))
    by (rewrite length_app; simpl; lia).
  rewrite firstn_app, firstn_all, Nat.sub_diag. simpl.
  rewrite !app_nil_r. reflexivity.
Qed.

Lemma unregistered_not_found (l : list value) (c : ref) :
  indexOfListener l (VFunction c) = (-1)%Z -> ~ registered (VFunction c) l.
Proof.
  intros H Hreg. apply (indexOfListener_registered l c Hreg). exact H.
Qed.

(** X3.  On an exact key where the function [f] is not registered,
    [removeListener(k, f)] undoes [addListener(k, f)], and it undoes
    [addOnceListener(k, f)] as well: the array of [k] is again what it
    was. *)
Theorem removeListener_undoes_add (k : string) (f : ref) (s : Store) :
  ~ registered (VFunction f) (array_at k s) ->
  array_at k
    (exec (addListener (EString k) (VFunction f) ;;
           removeListener (EString k) (VFunction f)) s) = array_at k s /\
  array_at k
    (exec (addOnceListener (EString k) (VFunction f) ;;
           removeListener (EString k) (VFunction f)) s) = array_at k s.
Proof.
  intros Hf. pose proof (indexOfListener_unregistered _ _ Hf) as Hidx. split.
  - rewrite (exec_seq _ _ s tt)
      by (apply addListener_string_outcome; reflexivity).
    rewrite array_at_removeListener, String.eqb_refl.
    rewrite array_at_add_function, Hidx.
    destruct (reachable k s); cbn [andb Z.eqb].
    + apply remove_last_appended. simpl. apply Nat.eqb_refl.
    + apply remove_last_unregistered. exact Hidx.
  - rewrite (exec_seq _ _ s tt)
      by (apply addOnceListener_string_outcome; reflexivity).
    rewrite array_at_removeListener, String.eqb_refl.
    rewrite array_at_addOnceListener by reflexivity. cbv zeta.
    destruct (_ && _).
    + apply remove_last_appended. simpl. apply Nat.eqb_refl.
    + apply remove_last_unregistered. exact Hidx.
Qed.

Lemma removeListener_undoes_add_witness :
  array_at "foo"
    (exec (addListener (EString "foo") (VFunction 5) ;;
           removeListener (EString "foo") (VFunction 5)) three_listeners) =
  array_at "foo" three_listeners.
Proof.
  apply (removeListener_undoes_add "foo" 5 three_listeners).
  vm_compute. intros [H|[H|[H|[]]]]; discriminate H.
Defined.

Lemma NoDup_snoc {A} (l : list A) (a : A) :
  NoDup l -> ~ In a l -> NoDup (l ++ [a]).
Proof.
  induction l as [|b l IH]; simpl; intros Hnd Ha.
  - constructor; [intros [] | constructor].
  - inversion Hnd as [|b' l' Hb Hnd']; subst. constructor.
    + intros H. apply in_app_or in H. destruct H as [H|[H|[]]]; [auto|].
      apply Ha. left. symmetry. exact H.
    + apply IH; [exact Hnd'|]. intros H. apply Ha. right. exact H.
Qed.

(** X4.  [addListener] with a function keeps an array free of duplicate
    functions: on an exact key that is not a name the table inherits and
    whose array holds no function twice, the array still holds none twice
    afterwards, the function is registered, and a second [addListener]
    with the same function changes nothing. *)
Theorem addListener_function_keeps_unique (k : string) (f : ref) (s : Store) :
  inherited k = false ->
  NoDup (flattenListeners (array_at k s)) ->
  let s' := exec (addListener (EString k) (VFunction f)) s in
  NoDup (flattenListeners (array_at k s')) /\
  registered (VFunction f) (array_at k s') /\
  array_at k (exec (addListener (EString k) (VFunction f)) s') = array_at k s'.
Proof.
  intros Hk Hnd s'.
  assert (Hreg : registered (VFunction f) (array_at k s')).
  { unfold s'. rewrite array_at_add_function, (reachable_plain k s Hk).
    cbn [andb]. destruct (_ =? _)%Z eqn:E.
    - unfold registered, flattenListeners. rewrite map_app.
      apply in_or_app. right. left. reflexivity.
    - apply Z.eqb_neq in E.
      destruct (indexOfListener_from_found _ _ _ E) as (j & _ & Hj & Heq).
      apply strict_equals_function in Heq.
      unfold registered, flattenListeners. rewrite <- Heq.
      apply in_map. apply nth_In. exact Hj. }
  split; [|split; [exact Hreg|]].
  - unfold s'. rewrite array_at_add_function, (reachable_plain k s Hk).
    cbn [andb]. destruct (_ =? _)%Z eqn:E; [|exact Hnd].
    apply Z.eqb_eq in E. unfold flattenListeners. rewrite map_app. simpl.
    apply NoDup_snoc; [exact Hnd|]. apply unregistered_not_found. exact E.
  - rewrite array_at_add_function.
    pose proof (indexOfListener_registered _ _ Hreg) as E.
    apply Z.eqb_neq in E. rewrite E, andb_false_r. reflexivity.
Qed.

Lemma addListener_function_keeps_unique_witness :
  let s' := exec (addListener (EString "foo") (VFunction 2)) three_listeners in
  NoDup (flattenListeners (array_at "foo" s')) /\
  registered (VFunction 2) (array_at "foo" s') /\
  array_at "foo" (exec (addListener (EString "foo") (VFunction 2)) s') =
  array_at "foo" s'.
Proof.
  apply (addListener_function_keeps_unique "foo" 2 three_listeners).
  - reflexivity.
  - vm_compute. repeat constructor; simpl; intuition discriminate.
Defined.

(** ** Adding in bulk *)

Lemma flatten_add_unregistered (n : ref) (f : ref) (l : list value) :
  ~ registered (VFunction f) l ->
  flattenListeners (add_last n (VFunction f) l) =
  flattenListeners l ++ [VFunction f].
Proof.
  intros Hf. unfold add_last.
  rewrite (indexOfListener_unregistered _ _ Hf). simpl.
  unfold push, flattenListeners. rewrite map_app. reflexivity.
Qed.

Lemma addListener_functions_down (k : string) (fs : list ref) :
  inherited k = false ->
  forall s,
    NoDup fs ->
    (forall f, In f fs -> ~ registered (VFunction f) (array_at k s)) ->
    outcome (while_down (List.length (map VFunction fs)) (map VFunction fs)
               (addListener (EString k))) s = Normal tt /\
    flattenListeners
      (array_at k
         (exec (while_down (List.length (map VFunction fs)) (map VFunction fs)
                  (addListener (EString k))) s)) =
    flattenListeners (array_at k s) ++ rev (map VFunction fs).
Proof.
  intros Hk.
  induction fs as [|x fs IH] using rev_ind; intros s Hnd Hnew.
  - simpl. rewrite app_nil_r. split; reflexivity.
  - rewrite map_app, length_app, Nat.add_comm. cbn [map List.length plus].
    cbn [while_down]. rewrite nth_middle.
    assert (Hx : ~ registered (VFunction x) (array_at k s)).
    { apply Hnew. apply in_or_app. right. left. reflexivity. }
    pose proof (addListener_string_outcome k (VFunction x) s eq_refl) as Ho.
    set (s1 := exec (addListener (EString k) (VFunction x)) s).
    assert (H1 : flattenListeners (array_at k s1) =
                 flattenListeners (array_at k s) ++ [VFunction x]).
    { unfold s1. rewrite array_at_addListener by reflexivity.
      rewrite String.eqb_refl, (reachable_plain k s Hk). cbn [andb].
      apply flatten_add_unregistered. exact Hx. }
    apply NoDup_remove in Hnd. rewrite app_nil_r in Hnd.
    destruct Hnd as [Hnd Hnotin].
    assert (Hnew1 : forall f, In f fs ->
                      ~ registered (VFunction f) (array_at k s1)).
    { intros f Hf Hreg. unfold registered in Hreg. rewrite H1 in Hreg.
      apply in_app_or in Hreg. destruct Hreg as [Hreg|[Hreg|[]]].
      - apply (Hnew f); [apply in_or_app; left; exact Hf | exact Hreg].
      - injection Hreg as ->. contradiction. }
    destruct (IH s1 Hnd Hnew1) as [IHo IHa].
    rewrite (outcome_seq _ _ s tt Ho), (exec_seq _ _ s tt Ho). fold s1.
    unfold outcome, exec in *.
    rewrite !while_down_app by lia.
    split; [exact IHo|].
    rewrite IHa, H1, rev_app_distr, <- app_assoc. reflexivity.
Qed.

(** X5.  [addListeners] with an exact key that is not a name the table
    inherits and an array of distinct functions, none of them registered
    for the key, returns normally and registers them in reverse: the
    functions of the key's array are the old ones followed by the given
    ones from the last to the first. *)
Theorem addListeners_registers_in_reverse (k : string) (fs : list ref)
    (s : Store) :
  inherited k = false ->
  NoDup fs ->
  (forall f, In f fs -> ~ registered (VFunction f) (array_at k s)) ->
  outcome (addListeners (OneEvent (EString k)) (map VFunction fs)) s =
    Normal tt /\
  flattenListeners
    (array_at k
       (exec (addListeners (OneEvent (EString k)) (map VFunction fs)) s)) =
  flattenListeners (array_at k s) ++ rev (map VFunction fs).
Proof.
  intros Hk Hnd Hnew. apply (addListener_functions_down k fs Hk s Hnd Hnew).
Qed.

Lemma addListeners_registers_in_reverse_witness :
  flattenListeners
    (array_at "bar"
       (exec (addListeners (OneEvent (EString "bar"))
                (map VFunction [5; 6; 7])) two_events)) =
  [VFunction 2; VFunction 7; VFunction 6; VFunction 5].
Proof.
  apply (addListeners_registers_in_reverse "bar" [5; 6; 7] two_events).
  - reflexivity.
  - repeat constructor; simpl; intuition discriminate.
  - vm_compute. intros f Hf [H|[]]. injection H as <-.
    destruct Hf as [H|[H|[H|[]]]]; discriminate H.
Defined.

(** ** Defining and removing events *)

Lemma defineEvent_string (k : string) (s : Store) :
  exec (defineEvent (EString k)) s = defined k s.
Proof.
  unfold exec, defineEvent, bind. rewrite getListeners_string. reflexivity.
Qed.

Lemma defined_twice (k : string) (s : Store) :
  defined k (defined k s) = defined k s.
Proof.
  unfold defined at 1.
  assert (H : Obj.has k (events_of (defined k s)) || inherited k = true).
  { destruct (inherited k) eqn:I; [apply orb_true_r|].
    rewrite orb_false_r. unfold Obj.has.
    rewrite has_defined by (apply reachable_plain; exact I). reflexivity. }
  rewrite H. apply with_events_same. reflexivity.
Qed.


(** X7.  [removeEvent] with a string deletes that key and no other: the
    key is not in the table afterwards, and every other key has the array
    it had. *)
Theorem removeEvent_deletes_one_key (k : string) (s : Store) :
  let s' := exec (removeEvent (Some (EString k))) s in
  Obj.get k (events_of s') = None /\
  (forall k', k' <> k -> Obj.get k' (events_of s') = Obj.get k' (events_of s)) /\
  sentinel_of s' = sentinel_of s.
Proof.
  cbv zeta.
  assert (H : events_of (exec (removeEvent (Some (EString k))) s) =
              Obj.delete k (events_of s)).
  { unfold exec, removeEvent, bind, _getEvents, events_of.
    destruct (_events s); reflexivity. }
  rewrite H. repeat split.
  - rewrite ObjFacts.get_delete, String.eqb_refl. reflexivity.
  - intros k' Hne. rewrite ObjFacts.get_delete.
    destruct (String.eqb k' k) eqn:E; [|reflexivity].
    apply String.eqb_eq in E. contradiction.
  - unfold exec, removeEvent, bind, _getEvents, sentinel_of.
    destruct (_events s); reflexivity.
Qed.

Lemma delete_insert_index {A} (n : N) (k : string) (v : A) (o : Obj.t A) :
  Obj.get k o = None -> Obj.delete k (Obj.insert_index n k v o) = o.
Proof.
  unfold Obj.delete.
  induction o as [|[k' v'] rest IH]; simpl; intros H.
  - rewrite String.eqb_refl. reflexivity.
  - destruct (String.eqb k k') eqn:E; [discriminate|].
    destruct (array_index k') as [m|]; [destruct (m <? n)%N|]; simpl;
      rewrite ?String.eqb_refl, ?E; simpl.
    + rewrite IH by exact H. reflexivity.
    + fold (Obj.delete k rest). rewrite delete_missing by exact H. reflexivity.
    + fold (Obj.delete k rest). rewrite delete_missing by exact H. reflexivity.
Qed.

Lemma delete_set_new {A} (k : string) (v : A) (o : Obj.t A) :
  Obj.get k o = None -> Obj.delete k (Obj.set k v o) = o.
Proof.
  intros H. unfold Obj.set, Obj.has. rewrite H.
  destruct (array_index k) as [n|].
  - apply delete_insert_index. exact H.
  - unfold Obj.delete. rewrite filter_app. simpl. rewrite String.eqb_refl.
    simpl. rewrite app_nil_r. apply delete_missing. exact H.
Qed.

Lemma delete_update {A} (k : string) (g : A -> A) (o : Obj.t A) :
  Obj.delete k (Obj.update k g o) = Obj.delete k o.
Proof.
  unfold Obj.delete.
  induction o as [|[k' v'] rest IH]; simpl; [reflexivity|].
  destruct (String.eqb k k') eqn:E; simpl; rewrite E; simpl.
  - reflexivity.
  - rewrite IH. reflexivity.
Qed.

Lemma events_of_addListener_function (k : string) (f : ref) (s : Store) :
  events_of (exec (addListener (EString k) (VFunction f)) s) =
  if reachable k s &&
     (indexOfListener (array_at k s) (VFunction f) =? -1)%Z
  then Obj.update k
         (push (VObject (next_ref s) (VFunction f) (VBoolean false)))
         (events_of (defined k s))
  else events_of (defined k s).
Proof.
  unfold exec, addListener. simpl. unfold bind at 1.
  rewrite getListenersAsObject_string.
  destruct (reachable k s); simpl; [|reflexivity].
  unfold bind, elements. simpl. rewrite array_at_defined.
  destruct (indexOfListener (array_at k s) (VFunction f) =? -1)%Z; reflexivity.
Qed.

(** X8.  For a key that is not in the table, [removeEvent(k)] undoes
    [defineEvent(k)], and it undoes [addListener(k, f)] too: the table is
    again what it was, keys in the same order. *)
Theorem removeEvent_undoes_define (k : string) (f : ref) (s : Store) :
  Obj.has k (events_of s) = false ->
  events_of (exec (defineEvent (EString k) ;;
                   removeEvent (Some (EString k))) s) = events_of s /\
  events_of (exec (addListener (EString k) (VFunction f) ;;
                   removeEvent (Some (EString k))) s) = events_of s.
Proof.
  intros Hk. unfold Obj.has in Hk.
  destruct (Obj.get k (events_of s)) eqn:E; [discriminate|].
  assert (Hdel : forall t, events_of (exec (removeEvent (Some (EString k))) t) =
                           Obj.delete k (events_of t)).
  { intros t. unfold exec, removeEvent, bind, _getEvents, events_of.
    destruct (_events t); reflexivity. }
  split.
  - rewrite (exec_seq _ _ s tt) by apply defineEvent_outcome.
    rewrite Hdel, defineEvent_string, events_of_defined. unfold Obj.has.
    rewrite E. simpl. destruct (inherited k).
    + apply delete_missing. exact E.
    + apply delete_set_new. exact E.
  - rewrite (exec_seq _ _ s tt)
      by (apply addListener_string_outcome; reflexivity).
    rewrite Hdel, events_of_addListener_function.
    destruct (_ && _); rewrite ?delete_update, events_of_defined;
      unfold Obj.has; rewrite E; simpl; destruct (inherited k);
      solve [apply delete_missing; exact E | apply delete_set_new; exact E].
Qed.

Lemma removeEvent_undoes_define_witness :
  events_of (exec (defineEvent (EString "baz") ;;
                   removeEvent (Some (EString "baz"))) two_events) =
  events_of two_events.
Proof.
  apply (removeEvent_undoes_define "baz" 1 two_events). reflexivity.
Defined.

Lemma events_of_removeEvent_regexp (r : RegExp) (s : Store) :
  events_of (exec (removeEvent (Some (ERegExp r))) s) =
  filter (fun kv => negb (test r (fst kv))) (events_of s).
Proof.
  unfold exec, removeEvent, bind, _getEvents, events_of.
  destruct (_events s); reflexivity.
Qed.

Lemma get_filter_keys {A} (p : string -> bool) (k : string) (o : Obj.t A) :
  Obj.get k (filter (fun kv => p (fst kv)) o) =
  if p k then Obj.get k o else None.
Proof.
  induction o as [|[k' v] rest IH]; simpl.
  - destruct (p k); reflexivity.
  - destruct (p k') eqn:Ep; simpl.
    + destruct (String.eqb k k') eqn:E.
      * apply String.eqb_eq in E. subst k'. rewrite Ep. reflexivity.
      * exact IH.
    + rewrite IH. destruct (String.eqb k k') eqn:E; [|reflexivity].
      apply String.eqb_eq in E. subst k'. rewrite Ep. reflexivity.
Qed.

(** X9.  [removeEvent] with a pattern deletes exactly the keys the pattern
    matches: the remaining keys are the ones it does not match, in their
    old order and with their arrays. *)
Theorem removeEvent_pattern_deletes_matches (r : RegExp) (s : Store) :
  let s' := exec (removeEvent (Some (ERegExp r))) s in
  event_keys s' = filter (fun key => negb (test r key)) (event_keys s) /\
  (forall k, test r k = true -> Obj.get k (events_of s') = None) /\
  (forall k, test r k = false ->
             Obj.get k (events_of s') = Obj.get k (events_of s)).
Proof.
  cbv zeta. unfold event_keys. rewrite events_of_removeEvent_regexp.
  repeat split.
  - unfold Obj.keys. induction (events_of s) as [|[k v] rest IH];
      [reflexivity|].
    simpl. destruct (test r k); simpl; rewrite IH; reflexivity.
  - intros k Hk.
    rewrite (get_filter_keys (fun key => negb (test r key))), Hk. reflexivity.
  - intros k Hk.
    rewrite (get_filter_keys (fun key => negb (test r key))), Hk. reflexivity.
Qed.

(** X10.  After [removeEvent()] without an argument the table is empty,
    and whatever is emitted next, for an exact key or a pattern, returns
    normally without applying any function. *)
Theorem emit_after_removeEvent_is_silent
    (behaviour : ref -> list value -> M Store value)
    (evt : EventKey) (args : option (list value)) (s : Store) :
  let s' := exec (removeEvent None) s in
  events_of s' = [] /\
  outcome (emitEvent behaviour evt args) (start s') = Normal tt /\
  calls (exec (emitEvent behaviour evt args) (start s')) = [].
Proof.
  cbv zeta.
  assert (H : exec (removeEvent None) s =
              {| _onceReturnValue := _onceReturnValue s;
                 _events := None; next_ref := next_ref s |}).
  { unfold exec, removeEvent, bind, _getEvents. destruct (_events s); reflexivity. }
  rewrite H. split; [reflexivity|]. destruct evt as [k|r].
  - unfold outcome, exec. rewrite emitEvent_string. split; reflexivity.
  - unfold outcome, exec, emitEvent, bind at 1, lift at 1.
    rewrite getListenersAsObject_regexp. split; reflexivity.
Qed.

(** ** What the methods leave alone *)

Lemma preserves_ret {A B} (obs : Store -> B) (a : A) : preserves obs (ret a).
Proof. intros s. reflexivity. Qed.

Lemma preserves_throw {A B} (obs : Store -> B) (e : exn) :
  preserves obs (throw (A := A) e).
Proof. intros s. reflexivity. Qed.

Lemma preserves_bind {A C B} (obs : Store -> B) (m : M Store A)
    (k : A -> M Store C) :
  preserves obs m -> (forall a, preserves obs (k a)) ->
  preserves obs (bind m k).
Proof.
  intros Hm Hk s. specialize (Hm s). unfold exec, bind in *.
  destruct (m s) as [[a|e] s']; simpl in *.
  - rewrite <- Hm. apply Hk.
  - exact Hm.
Qed.

Lemma preserves_for_each {A B} (obs : Store -> B) (l : list A)
    (body : A -> M Store unit) :
  (forall a, preserves obs (body a)) -> preserves obs (for_each l body).
Proof.
  intros Hb. induction l as [|a rest IH]; simpl.
  - apply preserves_ret.
  - apply preserves_bind; [apply Hb | intros _; exact IH].
Qed.

Lemma preserves_while_down {B} (obs : Store -> B) (i : nat) (l : list value)
    (body : value -> M Store unit) :
  (forall a, preserves obs (body a)) -> preserves obs (while_down i l body).
Proof.
  intros Hb. induction i as [|i IH]; simpl.
  - apply preserves_ret.
  - apply preserves_bind; [apply Hb | intros _; exact IH].
Qed.

Lemma sentinel_getListenersAsObject (evt : EventKey) :
  preserves _onceReturnValue (getListenersAsObject evt).
Proof.
  intros s. destruct evt as [k|r]; unfold exec.
  - rewrite getListenersAsObject_string. reflexivity.
  - rewrite getListenersAsObject_regexp. unfold exec, _getEvents.
    destruct (_events s); reflexivity.
Qed.

Lemma sentinel_mutate (owner : string) (f : list value -> list value) :
  preserves _onceReturnValue (mutate owner f).
Proof.
  intros s. unfold exec, mutate. simpl. destruct (_events s); reflexivity.
Qed.

Lemma sentinel_removeListener (evt : EventKey) (x : value) :
  preserves _onceReturnValue (removeListener evt x).
Proof.
  unfold removeListener. apply preserves_bind.
  - apply sentinel_getListenersAsObject.
  - intros response. apply preserves_for_each. intros kv.
    apply preserves_bind; [intros s; reflexivity|]. intros live.
    destruct (negb _); [apply sentinel_mutate | apply preserves_ret].
Qed.

Lemma sentinel_addListener (evt : EventKey) (x : value) :
  preserves _onceReturnValue (addListener evt x).
Proof.
  unfold addListener. destruct (negb (isValidListener x)).
  - apply preserves_throw.
  - apply preserves_bind.
    + apply sentinel_getListenersAsObject.
    + intros response. apply preserves_for_each. intros kv.
      apply preserves_bind; [intros s; reflexivity|]. intros live.
      destruct (_ =? _)%Z; [|apply preserves_ret].
      apply preserves_bind.
      * destruct (String.eqb _ _); intros s; reflexivity.
      * intros record. apply sentinel_mutate.
Qed.

Lemma sentinel_defineEvent (evt : EventKey) :
  preserves _onceReturnValue (defineEvent evt).
Proof.
  intros s. destruct evt as [k|r].
  - rewrite defineEvent_string. reflexivity.
  - unfold exec, defineEvent, getListeners, bind, _getEvents.
    destruct (_events s); reflexivity.
Qed.


Lemma keys_update {A} (k : string) (f : A -> A) (o : Obj.t A) :
  Obj.keys (Obj.update k f o) = Obj.keys o.
Proof.
  unfold Obj.keys. induction o as [|[k' v] rest IH]; simpl; [reflexivity|].
  destruct (String.eqb k k'); simpl; [reflexivity|]. rewrite IH. reflexivity.
Qed.

Lemma keys_getListenersAsObject_regexp (r : RegExp) :
  preserves event_keys (getListenersAsObject (ERegExp r)).
Proof.
  intros s. unfold exec. rewrite getListenersAsObject_regexp. simpl.
  unfold event_keys. rewrite events_of_getEvents. reflexivity.
Qed.

Lemma keys_mutate (owner : string) (f : list value -> list value) :
  preserves event_keys (mutate owner f).
Proof.
  intros s. unfold exec, mutate, event_keys, events_of. simpl.
  destruct (_events s) eqn:E; simpl; [apply keys_update|].
  rewrite E. reflexivity.
Qed.

Lemma keys_addListener_regexp (r : RegExp) (x : value) :
  preserves event_keys (addListener (ERegExp r) x).
Proof.
  unfold addListener. destruct (negb (isValidListener x)).
  - apply preserves_throw.
  - apply preserves_bind.
    + apply keys_getListenersAsObject_regexp.
    + intros response. apply preserves_for_each. intros kv.
      apply preserves_bind; [intros s; reflexivity|]. intros live.
      destruct (_ =? _)%Z; [|apply preserves_ret].
      apply preserves_bind.
      * destruct (String.eqb _ _); intros s; reflexivity.
      * intros record. apply keys_mutate.
Qed.

(** X12.  A pattern never creates a key: looking up, defining, adding a
    listener (valid or not, fire-once or not) and removing a listener with
    a pattern as the selector all leave the keys of the table, and their
    order, as they were. *)
Theorem pattern_never_creates_keys (r : RegExp) (x : value) :
  preserves event_keys (getListeners (ERegExp r)) /\
  preserves event_keys (defineEvent (ERegExp r)) /\
  preserves event_keys (addListener (ERegExp r) x) /\
  preserves event_keys (addOnceListener (ERegExp r) x) /\
  preserves event_keys (removeListener (ERegExp r) x).
Proof.
  assert (Hget : preserves event_keys (getListeners (ERegExp r))).
  { intros s. unfold exec, getListeners, bind, _getEvents, event_keys, events_of.
    destruct (_events s) eqn:E; simpl; rewrite ?E; reflexivity. }
  repeat split.
  - exact Hget.
  - unfold defineEvent. apply preserves_bind; [exact Hget|].
    intros _. apply preserves_ret.
  - apply keys_addListener_regexp.
  - unfold addOnceListener. apply preserves_bind.
    + intros s. reflexivity.
    + intros record. apply keys_addListener_regexp.
  - unfold removeListener. apply preserves_bind.
    + apply keys_getListenersAsObject_regexp.
    + intros response. apply preserves_for_each. intros kv.
      apply preserves_bind; [intros s; reflexivity|]. intros live.
      destruct (negb _); [apply keys_mutate | apply preserves_ret].
Qed.

(** ** Dispatch: arguments, order, faults *)

Section DispatchOrder.

Variable behaviour : ref -> list value -> M Store value.

Lemma fire_arguments (evt : EventKey) (args : option (list value))
    (l : list value) (w : Run) :
  exists new,
    calls (exec (fire behaviour evt args l) w) = calls w ++ new /\
    forall e, In e new ->
              arguments e = match args with Some a => a | None => [] end.
Proof.
  revert w. induction l as [|x rest IH]; intros w.
  - exists []. split; [symmetry; apply app_nil_r | contradiction].
  - unfold exec. rewrite fire_cons. cbv zeta.
    set (w1 := if strict_equals (get_once x) (VBoolean true)
               then removed evt (get_listener x) w else w).
    assert (Hc : calls w1 = calls w).
    { unfold w1. destruct (strict_equals _ _); reflexivity. }
    clearbody w1.
    destruct (get_listener x) as [| | | | |c| | |];
      try (exists []; simpl; rewrite Hc, app_nil_r; split;
           [reflexivity | contradiction]).
    set (a := match args with Some a => a | None => [] end).
    set (w2 := {| this := exec (behaviour c a) (this w1);
                  calls := calls w1 ++ [mkCall c a (this w1)] |}).
    destruct (outcome (behaviour c a) (this w1)) as [v|e].
    + set (w3 := if strict_equals v (sentinel_of (this w2))
                 then removed evt (VFunction c) w2 else w2).
      assert (Hc3 : calls w3 = calls w ++ [mkCall c a (this w1)]).
      { unfold w3. destruct (strict_equals _ _); simpl; rewrite Hc; reflexivity. }
      destruct (IH w3) as (new & Hnew & Hargs).
      exists (mkCall c a (this w1) :: new). split.
      * unfold exec in Hnew. rewrite Hnew, Hc3, <- app_assoc. reflexivity.
      * intros e' [<-|He]; [reflexivity | apply Hargs; exact He].
    + exists [mkCall c a (this w1)]. simpl. rewrite Hc. split; [reflexivity|].
      intros e' [<-|[]]. reflexivity.
Qed.

Lemma emit_body (evt : EventKey) (args : option (list value))
    (owner : string) (w : Run) :
  (listeners <- lift (elements owner) ;; fire behaviour evt args listeners) w =
  fire behaviour evt args (array_at owner (this w))
    {| this := this w; calls := calls w |}.
Proof. reflexivity. Qed.

Lemma emit_loop_arguments (evt : EventKey) (args : option (list value))
    (response : Obj.t string) (w : Run) :
  exists new,
    calls (exec (for_each response (fun kv =>
                   listeners <- lift (elements (snd kv)) ;;
                   fire behaviour evt args listeners)) w) = calls w ++ new /\
    forall e, In e new ->
              arguments e = match args with Some a => a | None => [] end.
Proof.
  revert w. induction response as [|kv rest IH]; intros w.
  - exists []. split; [symmetry; apply app_nil_r | contradiction].
  - cbn [for_each]. unfold exec, bind at 1. cbv beta.
    rewrite emit_body. set (w0 := {| this := this w; calls := calls w |}).
    destruct (fire_arguments evt args (array_at (snd kv) (this w)) w0)
      as (new1 & H1 & Ha1).
    unfold exec in H1.
    destruct (fire behaviour evt args (array_at (snd kv) (this w)) w0)
      as [[[]|e] w'] eqn:Hf; cbn [snd] in H1 |- *.
    + destruct (IH w') as (new2 & H2 & Ha2). unfold exec in H2.
      exists (new1 ++ new2). split.
      * rewrite H2, H1, <- app_assoc. reflexivity.
      * intros e Hin. apply in_app_or in Hin.
        destruct Hin as [Hin|Hin]; [apply Ha1 | apply Ha2]; exact Hin.
    + exists new1. split; [exact H1 | exact Ha1].
Qed.

(** X13.  Every function a dispatch applies receives the argument array
    given to [emitEvent], or no arguments when the array was left out;
    [emit] hands over its trailing arguments.  This holds for exact keys
    and patterns, and whatever the listeners do. *)
Theorem emit_passes_arguments (evt : EventKey) (args : option (list value))
    (rest : list value) (s : Store) :
  (forall e, In e (calls (exec (emitEvent behaviour evt args) (start s))) ->
             arguments e = match args with Some a => a | None => [] end) /\
  (forall e, In e (calls (exec (emit behaviour evt rest) (start s))) ->
             arguments e = rest).
Proof.
  assert (H : forall args' e,
            In e (calls (exec (emitEvent behaviour evt args') (start s))) ->
            arguments e = match args' with Some a => a | None => [] end).
  { intros args' e. unfold exec, emitEvent, bind at 1, lift at 1.
    destruct (getListenersAsObject_total evt (this (start s)))
      as (response & ->).
    set (w0 := {| this := exec (getListenersAsObject evt) (this (start s));
                  calls := calls (start s) |}).
    destruct (emit_loop_arguments evt args' response w0) as (new & Hn & Ha).
    unfold exec in Hn. rewrite Hn. simpl. apply Ha. }
  split; [apply H|]. intros e. unfold emit. apply (H (Some rest)).
Qed.

Lemma fire_in_order (evt : EventKey) (args : option (list value))
    (l : list value) :
  callable l ->
  (forall c, registered (VFunction c) l ->
     forall a t, exists v, outcome (behaviour c a) t = Normal v) ->
  forall w,
    outcome (fire behaviour evt args l) w = Normal tt /\
    map VFunction (callees (exec (fire behaviour evt args l) w)) =
    map VFunction (callees w) ++ flattenListeners l.
Proof.
  induction l as [|x rest IH]; intros Hcall Hret w.
  - simpl. rewrite app_nil_r. split; reflexivity.
  - unfold outcome, exec. rewrite fire_cons. cbv zeta.
    inversion Hcall as [|x' rest' (c & Hx) Hrest]; subst. rewrite Hx.
    set (w1 := if strict_equals (get_once x) (VBoolean true)
               then removed evt (VFunction c) w else w).
    assert (Hc : calls w1 = calls w).
    { unfold w1. destruct (strict_equals _ _); reflexivity. }
    clearbody w1.
    set (a := match args with Some a => a | None => [] end).
    destruct (Hret c (or_introl Hx) a (this w1)) as (v & ->).
    set (w2 := {| this := exec (behaviour c a) (this w1);
                  calls := calls w1 ++ [mkCall c a (this w1)] |}).
    set (w3 := if strict_equals v (sentinel_of (this w2))
               then removed evt (VFunction c) w2 else w2).
    assert (Hc3 : callees w3 = callees w ++ [c]).
    { unfold w3, callees. destruct (strict_equals _ _); simpl;
        rewrite Hc, map_app; reflexivity. }
    destruct (IH Hrest (fun c' Hc' => Hret c' (or_intror Hc')) w3) as [Ho Ha].
    split; [exact Ho|].
    unfold exec in Ha. rewrite Ha, Hc3, map_app. simpl. rewrite Hx.
    rewrite <- app_assoc. reflexivity.
Qed.

(** X14.  A dispatch for an exact key applies the functions of the key's
    array as it was when the dispatch began, each record once and in
    array order, and returns normally, provided every record holds a
    function and these functions return normally; what the functions do
    to the emitter meanwhile does not change the pass. *)
Theorem emit_applies_in_registration_order (k : string)
    (args : option (list value)) (s : Store) :
  callable (array_at k s) ->
  (forall c, registered (VFunction c) (array_at k s) ->
     forall a t, exists v, outcome (behaviour c a) t = Normal v) ->
  outcome (emitEvent behaviour (EString k) args) (start s) = Normal tt /\
  map VFunction (callees (exec (emitEvent behaviour (EString k) args) (start s)))
  = flattenListeners (array_at k s).
Proof.
  intros Hcall Hret. unfold outcome, exec. rewrite emitEvent_string.
  apply (fire_in_order (EString k) args (array_at k s) Hcall Hret
           {| this := defined k (this (start s)); calls := calls (start s) |}).
Qed.

Lemma fire_until_throw (evt : EventKey) (args : option (list value))
    (xs : list value) (r : value) (ys : list value) (c : ref) (e : exn) :
  callable xs ->
  (forall c', registered (VFunction c') xs ->
     forall a t, exists v, outcome (behaviour c' a) t = Normal v) ->
  get_listener r = VFunction c ->
  (forall a t, outcome (behaviour c a) t = Abrupt e) ->
  forall w,
    outcome (fire behaviour evt args (xs ++ r :: ys)) w = Abrupt e /\
    map VFunction (callees (exec (fire behaviour evt args (xs ++ r :: ys)) w)) =
    map VFunction (callees w) ++ flattenListeners xs ++ [VFunction c].
Proof.
  intros Hcall Hret Hr Hthrow.
  induction xs as [|x rest IH]; intros w.
  - cbn [app]. unfold outcome, exec. rewrite fire_cons. cbv zeta. rewrite Hr.
    rewrite Hthrow. cbn [fst snd]. split; [reflexivity|].
    unfold callees. cbn [calls]. rewrite map_app, map_app. simpl.
    destruct (strict_equals _ _); reflexivity.
  - cbn [app]. unfold outcome, exec. rewrite fire_cons. cbv zeta.
    inversion Hcall as [|x' rest' (c' & Hx) Hrest]; subst. rewrite Hx.
    set (w1 := if strict_equals (get_once x) (VBoolean true)
               then removed evt (VFunction c') w else w).
    assert (Hc : calls w1 = calls w).
    { unfold w1. destruct (strict_equals _ _); reflexivity. }
    clearbody w1.
    set (a := match args with Some a => a | None => [] end).
    destruct (Hret c' (or_introl Hx) a (this w1)) as (v & ->).
    set (w2 := {| this := exec (behaviour c' a) (this w1);
                  calls := calls w1 ++ [mkCall c' a (this w1)] |}).
    set (w3 := if strict_equals v (sentinel_of (this w2))
               then removed evt (VFunction c') w2 else w2).
    assert (Hc3 : callees w3 = callees w ++ [c']).
    { unfold w3, callees. destruct (strict_equals _ _); simpl;
        rewrite Hc, map_app; reflexivity. }
    destruct (IH Hrest (fun c0 Hc0 => Hret c0 (or_intror Hc0)) w3) as [Ho Ha].
    split; [exact Ho|].
    unfold exec in Ha. rewrite Ha, Hc3, map_app. simpl. rewrite Hx.
    rewrite <- app_assoc. reflexivity.
Qed.

(** X15.  A fault in a listener ends the dispatch: when the functions of
    the records before [r] return normally and the function of [r] throws
    [e], [emitEvent] for that exact key throws [e], and the functions
    applied are those before [r] and that of [r]; the records after [r]
    get no turn. *)
Theorem emit_stops_at_throwing_listener (k : string)
    (args : option (list value)) (s : Store)
    (xs : list value) (r : value) (ys : list value) (c : ref) (e : exn) :
  array_at k s = xs ++ r :: ys ->
  callable xs ->
  (forall c', registered (VFunction c') xs ->
     forall a t, exists v, outcome (behaviour c' a) t = Normal v) ->
  get_listener r = VFunction c ->
  (forall a t, outcome (behaviour c a) t = Abrupt e) ->
  outcome (emitEvent behaviour (EString k) args) (start s) = Abrupt e /\
  map VFunction (callees (exec (emitEvent behaviour (EString k) args) (start s)))
  = flattenListeners xs ++ [VFunction c].
Proof.
  intros Harr Hcall Hret Hr Hthrow.
  unfold outcome, exec. rewrite emitEvent_string. cbn [this start].
  rewrite Harr.
  apply (fire_until_throw (EString k) args xs r ys c e Hcall Hret Hr Hthrow
           {| this := defined k s; calls := calls (start s) |}).
Qed.

End DispatchOrder.

Lemma emit_applies_in_registration_order_witness :
  outcome (emitEvent returns_false (EString "foo") None) (start three_listeners)
  = Normal tt /\
  map VFunction
    (callees (exec (emitEvent returns_false (EString "foo") None)
                (start three_listeners))) =
  flattenListeners (array_at "foo" three_listeners).
Proof.
  apply (emit_applies_in_registration_order returns_false "foo" None
           three_listeners).
  - vm_compute. repeat constructor; eexists; reflexivity.
  - intros c _ a t. exists (VBoolean false). reflexivity.
Defined.

Lemma emit_stops_at_throwing_listener_witness :
  outcome (emitEvent two_throws (EString "foo") None) (start three_listeners)
  = Abrupt (Raised (VString "boom")) /\
  map VFunction
    (callees (exec (emitEvent two_throws (EString "foo") None)
                (start three_listeners))) =
  [VFunction 1; VFunction 2].
Proof.
  apply (emit_stops_at_throwing_listener two_throws "foo" None three_listeners
           [VObject 0 (VFunction 1) (VBoolean false)]
           (VObject 1 (VFunction 2) (VBoolean false))
           [VObject 2 (VFunction 3) (VBoolean false)] 2
           (Raised (VString "boom"))).
  - reflexivity.
  - repeat constructor. exists 1. reflexivity.
  - intros c' [H|[]] a t. injection H as <-. exists (VBoolean false). reflexivity.
  - reflexivity.
  - intros a t. reflexivity.
Defined.

(** ** Listeners that hold no function *)

Lemma valid_not_function_is_object (x : value) :
  isValidListener x = true -> (forall c, x <> VFunction c) ->
  String.eqb (typeof x) "object" = true.
Proof.
  intros Hv Hf. destruct x; simpl in *; try discriminate; try reflexivity.
  - destruct b; discriminate.
  - destruct (negb (n =? 0)%Z); discriminate.
  - destruct (negb (s =? "")%string); discriminate.
  - exfalso. apply (Hf f). reflexivity.
Qed.

(** X16.  [isValidListener] lets through values that dispatch cannot
    apply: a pattern, or a record whose [listener] is not itself a
    function.  On an exact key that is not a name the table inherits and
    whose array is empty, [addListener] stores such a value as it is, as
    the array's only entry, and the next [emitEvent] for the key throws
    the engine's type error when it reaches it, before any function is
    applied. *)
Theorem listener_without_function_is_stored_then_throws
    (behaviour : ref -> list value -> M Store value)
    (k : string) (x : value) (args : option (list value)) (s : Store) :
  inherited k = false ->
  isValidListener x = true ->
  (forall c, x <> VFunction c) ->
  (forall c, get_listener x <> VFunction c) ->
  array_at k s = [] ->
  let s' := exec (addListener (EString k) x) s in
  outcome (addListener (EString k) x) s = Normal tt /\
  array_at k s' = [x] /\
  outcome (emitEvent behaviour (EString k) args) (start s') =
    Abrupt NotCallable /\
  calls (exec (emitEvent behaviour (EString k) args) (start s')) = [].
Proof.
  intros Hk Hv Hx Hl Harr s'.
  assert (Ha : array_at k s' = [x]).
  { unfold s'. rewrite array_at_addListener by exact Hv.
    rewrite String.eqb_refl, (reachable_plain k s Hk), Harr.
    unfold add_last. simpl.
    rewrite (valid_not_function_is_object x Hv Hx). reflexivity. }
  split; [apply addListener_string_outcome; exact Hv|].
  split; [exact Ha|].
  unfold outcome, exec. rewrite emitEvent_string. cbn [this start].
  rewrite Ha, fire_cons. cbv zeta.
  destruct (get_listener x) as [| | | | |c| | |] eqn:E;
    try (split; [reflexivity|];
         destruct (strict_equals (get_once x) (VBoolean true)); reflexivity).
  exfalso. apply (Hl c). reflexivity.
Qed.

Lemma listener_without_function_is_stored_then_throws_witness :
  let s' := exec (addListener (EString "baz") (VRegExp 9 foo_or_bar))
              two_events in
  outcome (addListener (EString "baz") (VRegExp 9 foo_or_bar)) two_events =
    Normal tt /\
  array_at "baz" s' = [VRegExp 9 foo_or_bar] /\
  outcome (emitEvent returns_false (EString "baz") None) (start s') =
    Abrupt NotCallable /\
  calls (exec (emitEvent returns_false (EString "baz") None) (start s')) = [].
Proof.
  apply (listener_without_function_is_stored_then_throws returns_false "baz"
           (VRegExp 9 foo_or_bar) None two_events).
  - reflexivity.
  - reflexivity.
  - intros c H. discriminate H.
  - intros c H. discriminate H.
  - reflexivity.
Defined.

(** ** Fire-once listeners and events nobody listens to *)

(** X17.  A fire-once listener alone on its key fires on the first
    dispatch only: after [addOnceListener(k, f)] on a key that is not a
    name the table inherits and whose array is empty, with [f] returning
    normally and leaving that array alone, the first [emitEvent(k)]
    applies [f] once, the second applies nothing, and the array is empty
    again. *)
Theorem once_listener_fires_once
    (behaviour : ref -> list value -> M Store value)
    (k : string) (f : ref) (args args' : option (list value)) (s : Store) :
  inherited k = false ->
  array_at k s = [] ->
  keeps_array behaviour k f ->
  let s1 := exec (addOnceListener (EString k) (VFunction f)) s in
  let w1 := exec (emitEvent behaviour (EString k) args) (start s1) in
  let w2 := exec (emitEvent behaviour (EString k) args') (start (this w1)) in
  callees w1 = [f] /\ array_at k (this w1) = [] /\
  callees w2 = [] /\ array_at k (this w2) = [].
Proof.
  intros Hin Harr Hkeep s1 w1 w2.
  set (r := VObject (next_ref s) (VFunction f) (VBoolean true)).
  assert (H1 : array_at k s1 = [r]).
  { unfold s1. rewrite array_at_addOnceListener by reflexivity.
    rewrite (reachable_plain k s Hin), Harr. reflexivity. }
  assert (Hrm : remove_last (VFunction f) [r] = []).
  { apply (remove_last_appended (VFunction f) r []). simpl. apply Nat.eqb_refl. }
  assert (Hw1 : callees w1 = [f] /\ array_at k (this w1) = []).
  { unfold w1, exec. rewrite emitEvent_string. cbn [this start].
    rewrite H1, fire_cons. cbv zeta. cbn [get_once get_listener r].
    cbn [strict_equals Bool.eqb].
    set (w := removed (EString k) (VFunction f)
                {| this := defined k s1; calls := calls (start s1) |}).
    assert (Hw : array_at k (this w) = []).
    { unfold w. rewrite array_at_removed. cbn [this].
      rewrite array_at_defined, H1. exact Hrm. }
    set (a := match args with Some a => a | None => [] end).
    destruct (Hkeep a (this w)) as [(v & Hv) Hk]. rewrite Hv.
    cbn [fire]. unfold ret. cbn [snd].
    destruct (strict_equals v _).
    - split; [reflexivity|]. rewrite array_at_removed. cbn [this].
      rewrite Hk, Hw. reflexivity.
    - split; [reflexivity|]. cbn [this]. rewrite Hk. exact Hw. }
  destruct Hw1 as [Hc1 Ha1]. split; [exact Hc1|]. split; [exact Ha1|].
  unfold w2, exec. rewrite emitEvent_string. cbn [this start].
  rewrite Ha1. cbn [fire]. unfold ret. cbn [snd this calls].
  split; [reflexivity|]. rewrite array_at_defined. exact Ha1.
Qed.

Lemma once_listener_fires_once_witness :
  let s1 := exec (addOnceListener (EString "baz") (VFunction 4)) two_events in
  let w1 := exec (emitEvent returns_false (EString "baz") None) (start s1) in
  let w2 := exec (emitEvent returns_false (EString "baz") None)
              (start (this w1)) in
  callees w1 = [4] /\ array_at "baz" (this w1) = [] /\
  callees w2 = [] /\ array_at "baz" (this w2) = [].
Proof.
  apply (once_listener_fires_once returns_false "baz" 4 None None two_events).
  - reflexivity.
  - reflexivity.
  - intros a t. split; [exists (VBoolean false)|]; reflexivity.
Defined.

(** X18.  Emitting an exact key that has no listeners applies nothing and
    returns normally, and it leaves the emitter exactly as [defineEvent]
    for that key would: the key is defined afterwards exactly when it was
    defined before or is not a name the table inherits. *)
Theorem emit_without_listeners_defines_the_key
    (behaviour : ref -> list value -> M Store value)
    (k : string) (args : option (list value)) (s : Store) :
  array_at k s = [] ->
  emitEvent behaviour (EString k) args (start s) =
    (Normal tt, start (exec (defineEvent (EString k)) s)) /\
  Obj.has k (events_of (exec (defineEvent (EString k)) s)) =
    Obj.has k (events_of s) || negb (inherited k).
Proof.
  intros Harr. rewrite emitEvent_string, defineEvent_string. cbn [this start].
  rewrite Harr. split; [reflexivity|].
  apply reachable_defined_has.
Qed.

Lemma emit_without_listeners_defines_the_key_witness :
  emitEvent returns_false (EString "baz") None (start two_events) =
  (Normal tt, start (exec (defineEvent (EString "baz")) two_events)).
Proof.
  apply (emit_without_listeners_defines_the_key returns_false "baz" None
           two_events).
  reflexivity.
Defined.

Lemma last_match_none (r : RegExp) (keys : list string) :
  (forall key, In key keys -> test r key = false) ->
  last_match r keys = None.
Proof.
  unfold last_match. induction keys as [|key rest IH]; intros H; [reflexivity|].
  simpl. rewrite (H key (or_introl eq_refl)).
  apply IH. intros key' Hin. apply H. right. exact Hin.
Qed.

Lemma fold_no_match (r : RegExp) (keys : list string) :
  (forall key, In key keys -> test r key = false) ->
  fold_left
    (fun (response : Obj.t string) key =>
       if test r key then Obj.set (toString r) key response else response)
    keys Obj.empty = [].
Proof.
  intros H. unfold Obj.empty.
  pose proof (resolve_regexp_fold r keys None) as E. cbv iota in E.
  rewrite E. fold (last_match r keys). rewrite (last_match_none r keys H).
  reflexivity.
Qed.

(** X19.  A pattern that matches no key of the table reaches nothing:
    [getListeners] returns an empty object, [emitEvent] applies no
    function and returns normally, [addListener] with a valid listener
    registers it nowhere, and the table is left as it was. *)
Theorem pattern_without_match_reaches_nothing
    (behaviour : ref -> list value -> M Store value)
    (r : RegExp) (x : value) (args : option (list value)) (s : Store) :
  (forall key, In key (event_keys s) -> test r key = false) ->
  outcome (getListeners (ERegExp r)) s = Normal (LObject []) /\
  outcome (emitEvent behaviour (ERegExp r) args) (start s) = Normal tt /\
  calls (exec (emitEvent behaviour (ERegExp r) args) (start s)) = [] /\
  events_of (this (exec (emitEvent behaviour (ERegExp r) args) (start s))) =
    events_of s /\
  (isValidListener x = true ->
   outcome (addListener (ERegExp r) x) s = Normal tt /\
   events_of (exec (addListener (ERegExp r) x) s) = events_of s).
Proof.
  intros Hno.
  assert (Hres : getListenersAsObject (ERegExp r) s =
                 (Normal [], exec _getEvents s)).
  { rewrite getListenersAsObject_regexp.
    rewrite (fold_no_match r (Obj.keys (events_of s)) Hno). reflexivity. }
  split.
  { unfold outcome, getListeners, bind, _getEvents.
    unfold event_keys, events_of in Hno.
    destruct (_events s) as [ev|] eqn:E; simpl; [|reflexivity].
    rewrite (fold_no_match r (Obj.keys ev) Hno). reflexivity. }
  unfold outcome, exec, emitEvent, bind at 1 3 5, lift at 1 3 5.
  cbn [this start]. rewrite Hres. cbn [for_each ret fst snd this calls].
  repeat split.
  - apply events_of_getEvents.
  - unfold addListener. rewrite H. simpl. unfold bind. rewrite Hres. reflexivity.
  - unfold addListener. rewrite H. simpl. unfold bind. rewrite Hres.
    apply events_of_getEvents.
Qed.

Lemma pattern_without_match_reaches_nothing_witness :
  calls (exec (emitEvent returns_false (ERegExp only_baz) None)
           (start two_events)) = [].
Proof.
  apply (pattern_without_match_reaches_nothing returns_false only_baz
           (VFunction 1) None two_events).
  vm_compute. intros key [<-|[<-|[]]]; reflexivity.
Defined.

(** ** Removing for good, and maps of listeners *)

(** X20.  On an exact key whose array holds no function twice,
    [removeListener(k, f)] leaves [f] unregistered for the key, and the
    array still holds no function twice. *)
Theorem removeListener_unregisters (k : string) (f : ref) (s : Store) :
  NoDup (flattenListeners (array_at k s)) ->
  let s' := exec (removeListener (EString k) (VFunction f)) s in
  ~ registered (VFunction f) (array_at k s') /\
  NoDup (flattenListeners (array_at k s')).
Proof.
  intros Hnd s'. unfold s'.
  rewrite array_at_removeListener, String.eqb_refl. split.
  - intros Hreg. unfold registered, flattenListeners in Hreg.
    apply in_map_iff in Hreg. destruct Hreg as (y & Hy & Hin).
    assert (Hl : In y (array_at k s)) by (eapply In_remove_last; exact Hin).
    apply (remove_last_removes y f _ Hnd Hl Hy). exact Hin.
  - apply NoDup_remove_last. exact Hnd.
Qed.

Lemma removeListener_unregisters_witness :
  let s' := exec (removeListener (EString "foo") (VFunction 2))
              three_listeners in
  ~ registered (VFunction 2) (array_at "foo" s') /\
  NoDup (flattenListeners (array_at "foo" s')).
Proof.
  apply (removeListener_unregisters "foo" 2 three_listeners).
  vm_compute. repeat constructor; simpl; intuition discriminate.
Defined.


